(** * xmtpd: membership registry, topic syncer and envelope ordering

    A shallow embedding of
    - [pkg/registry/contractRegistry.go]  (the [SmartContractRegistry]),
    - the in-memory [randomTopicSyncer] of package [crdt], and
    - the comparator that [requireEnvelopesEqual] hands to [sort.Slice],
    together with the properties the specification states about them. *)

From Stdlib Require Import ZArith String Ascii.
From Stdlib.Strings Require Import Byte.
From stdpp Require Import gmap list sorting.

Local Open Scope string_scope.
Local Open Scope list_scope.

(** ** Go runtime conventions shared by the three packages *)

(** Go's [error] interface: [None] is the [nil] error. *)
Definition error := string.

(** The outcome of running a Go function: it returns, or it panics. *)
Inductive GoResult (A : Type) : Type :=
| Returned (a : A)
| Panicked (msg : string).
Arguments Returned {A} a.
Arguments Panicked {A} msg.

(** Bytes are compared for equality. *)
#[global] Instance byte_eq_decision : EqDecision byte := Byte.byte_eq_dec.

(** Byte strings are keys of maps. *)
#[global] Instance byte_countable : Countable byte :=
  inj_countable Byte.to_N Byte.of_N Byte.of_to_N.

(** [strings.HasPrefix(s, prefix)]. *)
Definition HasPrefix (s pre : string) : bool := String.prefix pre s.

Module Registry.

(** ** Data model *)

(** A [uint16] node id. Ids are only compared, stored as map keys and used as
    a slice index, so no wrap-around arithmetic is involved. *)
Abbreviation uint16 := N.

(** [ecdsa.PublicKey] as produced by [crypto.UnmarshalPubkey]: the curve is
    always secp256k1, the point is [(X, Y)]. *)
Record PublicKey := { X : Z; Y : Z }.

(** [crypto.UnmarshalPubkey] belongs to go-ethereum, not to this repository:
    it is an interface the registry is parametrised by. [None] stands for
    the [(nil, err)] result. *)
Class CryptoLib := UnmarshalPubkey : list byte → option PublicKey.

(** [abis.NodesNode] and [abis.NodesNodeWithId], the records read from the
    contract. *)
Record NodesNode := {
  SigningKeyPub : list byte;
  RawHttpAddress : string;
  RawIsHealthy : bool
}.

Record NodesNodeWithId := {
  NodeId : uint16;
  RawNode : NodesNode
}.

(** Modelled from the spec: the [Node] struct is declared in another file of
    package [registry]; the specification lists its fields, and they are the
    ones [convertNode] fills in. A [nil] signing key is [None]. *)
Record Node := {
  NodeID : uint16;
  SigningKey : option PublicKey;
  HttpAddress : string;
  IsHealthy : bool;
  IsValidConfig : bool
}.

(** The zero value of [Node], as [make([]Node, n)] fills a fresh slice. *)
Definition zeroNode : Node :=
  {| NodeID := 0%N; SigningKey := None; HttpAddress := "";
     IsHealthy := false; IsValidConfig := false |}.

Definition PublicKey_Equal (a b : PublicKey) : bool :=
  (X a =? X b)%Z && (Y a =? Y b)%Z.

(** Modelled from the spec: the method [Node.Equals] is declared next to
    [Node]; the specification describes it as field-by-field equality
    including the derived [valid_config] bit, signing keys being compared by
    their canonical bytes (two [nil] keys are equal, a [nil] key differs from
    any other). *)
Definition Equals (n other : Node) : bool :=
  let equalsSigningKey :=
    match SigningKey n, SigningKey other with
    | None, None => true
    | Some k, Some k' => PublicKey_Equal k k'
    | _, _ => false
    end in
  (NodeID n =? NodeID other)%N
  && String.eqb (HttpAddress n) (HttpAddress other)
  && Bool.eqb (IsHealthy n) (IsHealthy other)
  && Bool.eqb (IsValidConfig n) (IsValidConfig other)
  && equalsSigningKey.

(** Modelled from the spec: the generic [notifier] ([register], [trigger]) is
    declared in another file of package [registry]; the specification has
    [Trigger(value)] deliver the value to every current consumer. A call of
    [trigger] is recorded as one notification, in program order: on
    [newNodesNotifier] it is a [NewNodesEv], on the notifier of an id a
    [ChangedNodeEv]. What the buffer of each consumer keeps is not modelled. *)
Inductive Notification :=
| NewNodesEv (batch : list Node)
| ChangedNodeEv (node : Node).

(** Calls made on the [zap] logger. *)
Inductive LogEntry :=
| InfoProcessingNewNodes (count : nat) (batch : list Node)
| InfoProcessingChangedNode (node : Node)
| ErrorFailedToRefresh (err : error).

(** [context.Context] handles are opaque here. *)
Definition Ctx := nat.

(** The [SmartContractRegistry] struct. [emitted] and [logged] record the
    effects on the notifiers and on the logger; [changedNodeNotifiers] keeps
    the ids that own a notifier; [loopStarted] records that
    [go s.refreshLoop()] has been executed. The contract is an external
    collaborator: each call of [AllNodes] is an input of the model. *)
Record SmartContractRegistry := {
  ctx : option Ctx;
  nodes : gmap N Node;
  changedNodeNotifiers : gset N;
  emitted : list Notification;
  logged : list LogEntry;
  loopStarted : bool
}.

Definition set_ctx (c : Ctx) (s : SmartContractRegistry) :=
  {| ctx := Some c; nodes := nodes s;
     changedNodeNotifiers := changedNodeNotifiers s;
     emitted := emitted s; logged := logged s; loopStarted := loopStarted s |}.

Definition set_nodes (m : gmap N Node) (s : SmartContractRegistry) :=
  {| ctx := ctx s; nodes := m;
     changedNodeNotifiers := changedNodeNotifiers s;
     emitted := emitted s; logged := logged s; loopStarted := loopStarted s |}.

Definition add_notifier (i : N) (s : SmartContractRegistry) :=
  {| ctx := ctx s; nodes := nodes s;
     changedNodeNotifiers := {[ i ]} ∪ changedNodeNotifiers s;
     emitted := emitted s; logged := logged s; loopStarted := loopStarted s |}.

Definition emit (ev : Notification) (s : SmartContractRegistry) :=
  {| ctx := ctx s; nodes := nodes s;
     changedNodeNotifiers := changedNodeNotifiers s;
     emitted := emitted s ++ [ev]; logged := logged s;
     loopStarted := loopStarted s |}.

Definition log (l : LogEntry) (s : SmartContractRegistry) :=
  {| ctx := ctx s; nodes := nodes s;
     changedNodeNotifiers := changedNodeNotifiers s;
     emitted := emitted s; logged := logged s ++ [l];
     loopStarted := loopStarted s |}.

Definition set_loopStarted (s : SmartContractRegistry) :=
  {| ctx := ctx s; nodes := nodes s;
     changedNodeNotifiers := changedNodeNotifiers s;
     emitted := emitted s; logged := logged s; loopStarted := true |}.

(** The registry [NewSmartContractRegistry] builds: empty maps, nothing
    emitted yet. *)
Definition emptyRegistry : SmartContractRegistry :=
  {| ctx := None; nodes := ∅; changedNodeNotifiers := ∅;
     emitted := []; logged := []; loopStarted := false |}.

(** [NewSmartContractRegistry]: fails when [abis.NewNodesCaller] does. *)
Definition NewSmartContractRegistry (newNodesCaller : option error)
  : SmartContractRegistry + error :=
  match newNodesCaller with
  | Some err => inr err
  | None => inl emptyRegistry
  end.

(** [OnChangedNode]: the notifier of [nodeId] is created on first use. *)
Definition OnChangedNode (nodeId : uint16) (s : SmartContractRegistry)
  : SmartContractRegistry :=
  if decide (nodeId ∈ changedNodeNotifiers s) then s else add_notifier nodeId s.

(** ** GetNodes *)

(** [nodes[idx] = node] on a slice: an index out of range panics. *)
Definition slice_store (idx : N) (node : Node) (sl : list Node)
  : option (list Node) :=
  if decide (N.to_nat idx < length sl) then Some (<[N.to_nat idx := node]> sl)
  else None.

(** The body of the [range] loop of [GetNodes] over the entries of the map;
    [idx] is the key of the entry. *)
Fixpoint GetNodes_loop (entries : list (N * Node)) (sl : list Node)
  : option (list Node) :=
  match entries with
  | [] => Some sl
  | (idx, node) :: rest =>
      match slice_store idx node sl with
      | Some sl' => GetNodes_loop rest sl'
      | None => None
      end
  end.

Definition GetNodes (s : SmartContractRegistry)
  : GoResult (list Node * option error) :=
  let sl := replicate (size (nodes s)) zeroNode in
  match GetNodes_loop (map_to_list (nodes s)) sl with
  | Some sl' => Returned (sl', None)
  | None => Panicked "index out of range"
  end.

(** ** Loading and converting the contract's nodes *)

Definition convertNode `{CryptoLib} (rawNode : NodesNodeWithId) : Node :=
  let signingKey := UnmarshalPubkey (SigningKeyPub (RawNode rawNode)) in
  let isValidConfig :=
    match signingKey with
    | Some _ => true
    | None => false
    end in
  let httpAddress := RawHttpAddress (RawNode rawNode) in
  let isValidConfig :=
    if negb (HasPrefix httpAddress "https://")
       && negb (HasPrefix httpAddress "http://")
    then false else isValidConfig in
  {| NodeID := NodeId rawNode;
     SigningKey := signingKey;
     HttpAddress := httpAddress;
     IsHealthy := RawIsHealthy (RawNode rawNode);
     IsValidConfig := isValidConfig |}.

(** The outcome of [s.contract.AllNodes(...)], timeout included: the nodes, or
    an error. *)
Abbreviation AllNodesResult := (list NodesNodeWithId + error)%type.

Definition loadFromContract `{CryptoLib} (allNodes : AllNodesResult)
  : list Node + error :=
  match allNodes with
  | inr err => inr err
  | inl raws => inl (convertNode <$> raws)
  end.

(** ** The refresh *)

Definition processChangedNode (node : Node) (s : SmartContractRegistry)
  : SmartContractRegistry :=
  let s := set_nodes (<[NodeID node := node]> (nodes s)) s in
  let s := log (InfoProcessingChangedNode node) s in
  if decide (NodeID node ∈ changedNodeNotifiers s)
  then emit (ChangedNodeEv node) s
  else s.

(** [for _, node := range nodes { s.nodes[node.NodeID] = node }]. *)
Definition storeNodes (m : gmap N Node) (batch : list Node) : gmap N Node :=
  foldl (λ m node, <[NodeID node := node]> m) m batch.

Definition processNewNodes (batch : list Node) (s : SmartContractRegistry)
  : SmartContractRegistry :=
  let s := log (InfoProcessingNewNodes (length batch) batch) s in
  let s := emit (NewNodesEv batch) s in
  set_nodes (storeNodes (nodes s) batch) s.

(** The [for _, node := range fromContract] loop of [refreshData]; it threads
    the registry and the [newNodes] slice. *)
Fixpoint refreshData_loop (fromContract : list Node)
    (s : SmartContractRegistry) (newNodes : list Node)
  : SmartContractRegistry * list Node :=
  match fromContract with
  | [] => (s, newNodes)
  | node :: rest =>
      match nodes s !! NodeID node with
      | None => refreshData_loop rest s (newNodes ++ [node])
      | Some existingValue =>
          if negb (Equals node existingValue)
          then refreshData_loop rest (processChangedNode node s) newNodes
          else refreshData_loop rest s newNodes
      end
  end.

Definition refreshData `{CryptoLib} (allNodes : AllNodesResult)
    (s : SmartContractRegistry) : SmartContractRegistry * option error :=
  match loadFromContract allNodes with
  | inr err => (s, Some err)
  | inl fromContract =>
      let '(s, newNodes) := refreshData_loop fromContract s [] in
      let s := if decide (0 < length newNodes) then processNewNodes newNodes s
               else s in
      (s, None)
  end.

(** ** Start and the refresh loop *)

Definition Start `{CryptoLib} (c : Ctx) (allNodes : AllNodesResult)
    (s : SmartContractRegistry) : SmartContractRegistry * option error :=
  let s := set_ctx c s in
  match refreshData allNodes s with
  | (s, Some err) => (s, Some err)
  | (s, None) => (set_loopStarted s, None)
  end.

(** What the [select] of [refreshLoop] can receive. *)
Inductive LoopEvent :=
| CtxDone
| TickerC (allNodes : AllNodesResult).

(** The [case <-ticker.C] branch. *)
Definition onTick `{CryptoLib} (allNodes : AllNodesResult)
    (s : SmartContractRegistry) : SmartContractRegistry :=
  match refreshData allNodes s with
  | (s, Some err) => log (ErrorFailedToRefresh err) s
  | (s, None) => s
  end.

(** [refreshLoop] along the events its [select] receives; it returns at
    [CtxDone], and it is blocked in the [select] when the events run out. *)
Fixpoint refreshLoop `{CryptoLib} (events : list LoopEvent)
    (s : SmartContractRegistry) : SmartContractRegistry :=
  match events with
  | [] => s
  | CtxDone :: _ => s
  | TickerC allNodes :: rest => refreshLoop rest (onTick allNodes s)
  end.

(** A history of the registry: [Start], ticks of the loop, and subscriptions
    to changed nodes, which are taken to arrive between two refreshes. *)
Inductive Action :=
| DoStart (c : Ctx) (allNodes : AllNodesResult)
| DoTick (allNodes : AllNodesResult)
| DoOnChangedNode (nodeId : uint16).

Definition act `{CryptoLib} (a : Action) (s : SmartContractRegistry)
  : SmartContractRegistry :=
  match a with
  | DoStart c allNodes => (Start c allNodes s).1
  | DoTick allNodes => onTick allNodes s
  | DoOnChangedNode nodeId => OnChangedNode nodeId s
  end.

Definition run `{CryptoLib} (history : list Action)
    (s : SmartContractRegistry) : SmartContractRegistry :=
  foldl (λ s a, act a s) s history.

(** ** Vocabulary of the properties *)

(** The ids a notification announces as new. *)
Definition announced_by (ev : Notification) : list N :=
  match ev with
  | NewNodesEv batch => NodeID <$> batch
  | ChangedNodeEv _ => []
  end.

(** [i] has been announced as new somewhere in the trace [tr]. *)
Definition announced (i : N) (tr : list Notification) : Prop :=
  ∃ batch, NewNodesEv batch ∈ tr ∧ i ∈ NodeID <$> batch.

(** Every changed-node notification of the trace comes after a new-nodes
    notification that contains its id. *)
Definition new_before_change (tr : list Notification) : Prop :=
  ∀ pre node post,
    tr = pre ++ ChangedNodeEv node :: post → announced (NodeID node) pre.

(** What [refreshData] hands to the [NewNodes] notifier and to the logger once
    its loop is over: nothing for an empty batch. *)
Definition new_event (batch : list Node) : list Notification :=
  match batch with
  | [] => []
  | _ :: _ => [NewNodesEv batch]
  end.

Definition new_log (batch : list Node) : list LogEntry :=
  match batch with
  | [] => []
  | _ :: _ => [InfoProcessingNewNodes (length batch) batch]
  end.

(** The invariant behind new-before-change: the trace respects it so far, and
    every id of the roster has been announced. *)
Definition announces_roster (s : SmartContractRegistry) : Prop :=
  new_before_change (emitted s)
  ∧ ∀ i, is_Some (nodes s !! i) → announced i (emitted s).

(** The nodes the loop of [refreshData] passes to [processChangedNode], read
    off the roster alone: the roster it diffs against is the one the earlier
    iterations have already written to. *)
Fixpoint changed_in (fromContract : list Node) (m : gmap N Node)
  : list Node :=
  match fromContract with
  | [] => []
  | node :: rest =>
      match m !! NodeID node with
      | None => changed_in rest m
      | Some existingValue =>
          if negb (Equals node existingValue)
          then node :: changed_in rest (<[NodeID node := node]> m)
          else changed_in rest m
      end
  end.

(** The diff as the specification words it, against the roster as it was when
    the refresh began. *)
Definition is_new (m : gmap N Node) (node : Node) : Prop :=
  m !! NodeID node = None.

Definition is_changed (m : gmap N Node) (node : Node) : Prop :=
  ∃ old, m !! NodeID node = Some old ∧ Equals node old = false.

#[global] Instance is_new_dec m node : Decision (is_new m node).
Proof. unfold is_new. apply _. Defined.

#[global] Instance is_changed_dec m node : Decision (is_changed m node).
Proof.
  unfold is_changed. destruct (m !! NodeID node) as [old|].
  - destruct (Equals node old) eqn:E.
    + right. intros (o & [= <-] & ?). congruence.
    + left. by exists old.
  - right. by intros (o & [=] & _).
Defined.

(** The nodes a notification carries to its consumers. *)
Definition notified (ev : Notification) : list Node :=
  match ev with
  | NewNodesEv batch => batch
  | ChangedNodeEv node => [node]
  end.

(** What a consumer may rely on when a node says its configuration is valid:
    it has a signing key and an http or https address. *)
Definition config_sound (node : Node) : Prop :=
  IsValidConfig node = true →
  is_Some (SigningKey node)
  ∧ (HasPrefix (HttpAddress node) "http://" = true
     ∨ HasPrefix (HttpAddress node) "https://" = true).

(** The ids a history subscribes to with [OnChangedNode]. *)
Definition subscribed_ids (history : list Action) : list N :=
  flat_map (λ a, match a with DoOnChangedNode i => [i] | _ => [] end) history.

(** A tick of the loop whose fetch failed. *)
Definition failed_tick (ev : LoopEvent) : Prop :=
  match ev with
  | TickerC (inr _) => True
  | _ => False
  end.

#[global] Instance failed_tick_dec ev : Decision (failed_tick ev).
Proof. destruct ev as [|[raws|err]]; simpl; apply _. Defined.

(** Two registries that differ in what they have logged only. *)
Definition same_but_log (s s' : SmartContractRegistry) : Prop :=
  ctx s = ctx s' ∧ nodes s = nodes s'
  ∧ changedNodeNotifiers s = changedNodeNotifiers s'
  ∧ emitted s = emitted s' ∧ loopStarted s = loopStarted s'.

(** The ids [0 .. n-1], the only ones [GetNodes] can place in its slice. *)
Definition dense_ids (n : nat) : list N := N.of_nat <$> seq 0 n.

End Registry.


Module Crdt.

(** ** The in-memory topic syncer of the replication tests *)

Abbreviation Multihash := (list byte).

(** Modelled from the spec: the [Event] struct of package [crdt] is declared
    outside the sources at hand; the specification gives it a topic, the
    content ids of its parents, an opaque payload and its own content id. *)
Record Event := {
  Cid : Multihash;
  Links : list Multihash;
  EventTopic : string;
  Payload : list byte
}.

(** The replica type [Node] of package [crdt] is known here only through its
    method [Get(topic, cid)], which the syncer calls. *)
Class NodeStore (Node : Type) :=
  Get : Node → string → Multihash → Event + error.

Record randomSyncer (Node : Type) := {
  syncerNodes : list Node
}.
Arguments syncerNodes {Node} _.

Record randomTopicSyncer (Node : Type) := {
  syncer : randomSyncer Node;
  node : Node;
  topic : string
}.
Arguments syncer {Node} _.
Arguments node {Node} _.
Arguments topic {Node} _.

(** [rand.Intn(n)]: panics unless [0 < n]; [draw] is what the generator
    produces for this call. *)
Definition Intn (draw n : nat) : GoResult nat :=
  if decide (n = 0) then Panicked "invalid argument to Intn"
  else Returned (draw mod n).

Definition GetRandomNode {Node} (s : randomSyncer Node) (draw : nat)
  : GoResult Node :=
  match Intn draw (length (syncerNodes s)) with
  | Panicked msg => Panicked msg
  | Returned i =>
      match syncerNodes s !! i with
      | Some n => Returned n
      | None => Panicked "index out of range"
      end
  end.

(** The [for _, cid := range cids] loop of [Fetch], threading [results]. *)
Fixpoint Fetch_loop `{NodeStore Node} (n : Node) (t : string)
    (cids : list Multihash) (results : list Event)
  : list Event * option error :=
  match cids with
  | [] => (results, None)
  | cid :: rest =>
      match Get n t cid with
      | inr err => ([], Some err)
      | inl ev => Fetch_loop n t rest (results ++ [ev])
      end
  end.

Definition Fetch `{NodeStore Node} (s : randomTopicSyncer Node) (draw : nat)
    (cids : list Multihash) : GoResult (list Event * option error) :=
  match GetRandomNode (syncer s) draw with
  | Panicked msg => Panicked msg
  | Returned n => Returned (Fetch_loop n (topic s) cids [])
  end.

Definition newRandomSyncer {Node} : randomSyncer Node :=
  {| syncerNodes := [] |}.

(** [s.nodes = append(s.nodes, n)]. *)
Definition AddNode {Node} (n : Node) (s : randomSyncer Node)
  : randomSyncer Node :=
  {| syncerNodes := syncerNodes s ++ [n] |}.

(** [NewTopic]: the topic syncer of replica [n] shares the syncer [s]; its
    logger is not modelled. *)
Definition NewTopic {Node} (name : string) (n : Node) (s : randomSyncer Node)
  : randomTopicSyncer Node :=
  {| syncer := s; node := n; topic := name |}.

(** The result of [Get] is an event, not an error. *)
Definition found (r : Event + error) : Prop :=
  match r with
  | inl _ => True
  | inr _ => False
  end.

(** ** The replica behind [Get], from the specification *)

(** Modelled from the spec: the content id of an event is declared outside
    the available files; the specification makes it a multihash over the
    canonical serialization of the event's topic, parent ids and payload. The
    hash itself is a parameter. *)
Class ContentAddress :=
  contentID : string → list Multihash → list byte → Multihash.

(** Modelled from the spec: the replica [Node] of package [crdt] and its topic
    stores are declared outside the available files. In the specification a
    topic store holds the events of one topic, committed or pending, under
    their content id, which is their primary key; a replica has one store per
    topic. *)
Abbreviation Replica := (string → gmap Multihash Event).

Definition emptyReplica : Replica := λ _, ∅.

(** Modelled from the spec: the local sanity of an event, which [Insert]
    requires: its topic is not empty and its content id is the one of its
    content. *)
Definition sane `{ContentAddress} (ev : Event) : bool :=
  negb (String.eqb (EventTopic ev) "")
  && bool_decide (Cid ev = contentID (EventTopic ev) (Links ev) (Payload ev)).

(** Modelled from the spec: [Insert] of the topic store is declared outside
    the available files. The specification has it fail with [Invalid] on an
    event that is not sane, do nothing on a content id it already knows, and
    otherwise hold the event, committed or pending, under its content id. *)
Definition Insert `{ContentAddress} (ev : Event) (n : Replica)
  : Replica + error :=
  if sane ev then
    match n (EventTopic ev) !! Cid ev with
    | Some _ => inl n
    | None =>
        inl (λ t, if String.eqb t (EventTopic ev)
                  then <[Cid ev := ev]> (n t) else n t)
    end
  else inr "invalid".

(** Modelled from the spec: the method [Get(topic, cid)] of the replica is
    declared outside the available files. The specification has it return
    the event held under the content id, pending events included, or
    [NotFound]. *)
Definition specGet : NodeStore Replica :=
  λ n t cid,
    match n t !! cid with
    | Some ev => inl ev
    | None => inr "not found"
    end.

(** A replica as it is after having been handed the events [received], from
    its own publishes, from broadcasts or from fetches; the invalid ones are
    refused. *)
Definition replicaOf `{ContentAddress} (received : list Event) : Replica :=
  foldl (λ n ev, match Insert ev n with inl n' => n' | inr _ => n end)
        emptyReplica received.

(** Every event a replica holds sits under its own content id, in the store
    of its own topic, and is sane. *)
Definition honest `{ContentAddress} (n : Replica) : Prop :=
  ∀ t cid ev, n t !! cid = Some ev →
              Cid ev = cid ∧ EventTopic ev = t ∧ sane ev = true.

(** The topic syncer of a replica among the replicas of a network. *)
Definition syncerOf `{ContentAddress} (network : list (list Event))
    (owner : Replica) (t : string) : randomTopicSyncer Replica :=
  {| syncer := {| syncerNodes := replicaOf <$> network |};
     node := owner; topic := t |}.

End Crdt.

Module ApiTesting.

(** ** The comparator of [requireEnvelopesEqual] *)

(** [messagev1.Envelope]; [TimestampNs] is a [uint64], kept in
    [0 <= TimestampNs < 2^64]. *)
Record Envelope := {
  ContentTopic : string;
  TimestampNs : Z;
  Message : list byte
}.

Definition uint64_ok (e : Envelope) : Prop :=
  (0 ≤ TimestampNs e < 2 ^ 64)%Z.

(** Two's complement wrap-around to Go's 64-bit [int]. *)
Definition wrap_int (z : Z) : Z := ((z + 2 ^ 63) mod 2 ^ 64 - 2 ^ 63)%Z.

(** The conversion [int(u)] of a [uint64]. *)
Definition int_of_uint64 (u : Z) : Z := wrap_int u.

(** Subtraction on [int]. *)
Definition int_sub (a b : Z) : Z := wrap_int (a - b).

(** [bytes.Compare]: lexicographic on unsigned bytes; -1, 0 or 1. *)
Fixpoint bytes_Compare (a b : list byte) : Z :=
  match a, b with
  | [], [] => 0
  | [], _ :: _ => -1
  | _ :: _, [] => 1
  | x :: a', y :: b' =>
      match N.compare (Byte.to_N x) (Byte.to_N y) with
      | Lt => -1
      | Gt => 1
      | Eq => bytes_Compare a' b'
      end
  end%Z.

(** The [less] closure given to [sort.Slice], on the two elements it reads. *)
Definition less (ei ej : Envelope) : bool :=
  let d := int_sub (int_of_uint64 (TimestampNs ei))
                   (int_of_uint64 (TimestampNs ej)) in
  if negb (d =? 0)%Z then (d <? 0)%Z
  else (bytes_Compare (Message ei) (Message ej) <? 0)%Z.

(** The order the specification words: timestamps ascending, payload bytes
    ascending as tiebreak. *)
Definition spec_before (ei ej : Envelope) : Prop :=
  (TimestampNs ei < TimestampNs ej)%Z
  ∨ (TimestampNs ei = TimestampNs ej
     ∧ bytes_Compare (Message ei) (Message ej) < 0)%Z.

(** The conversion [uint64(i)] of an [int]. *)
Definition uint64_of_int (i : Z) : Z := (i mod 2 ^ 64)%Z.

(** A value of Go's 64-bit [int]. *)
Definition int_ok (i : Z) : Prop := (- 2 ^ 63 ≤ i < 2 ^ 63)%Z.

(** [newRandomEnvelope]; [randomString] is what [test.RandomString(13)]
    returns for this call. *)
Definition newRandomEnvelope (topic : string) (timestampNs : Z)
    (randomString : string) : Envelope :=
  {| ContentTopic := topic;
     TimestampNs := uint64_of_int timestampNs;
     Message := list_byte_of_string ("msg-" ++ randomString)%string |}.

(** What the comparator reads of an envelope. *)
Definition sort_key (e : Envelope) : Z * list byte :=
  (TimestampNs e, Message e).

(** What [sort.Slice] leaves behind when it is given [less]: no element is
    less than one that stands before it. *)
Definition sorted_by_less (l : list Envelope) : Prop :=
  ∀ i j ei ej, i < j → l !! i = Some ei → l !! j = Some ej →
               less ej ei = false.

(** The envelopes whose timestamp fits in the non-negative half of [int]. *)
Definition small_timestamp (e : Envelope) : Prop :=
  (0 ≤ TimestampNs e < 2 ^ 63)%Z.

(** The order on keys the comparator aims at: timestamps first, then the
    bytes of the message. *)
Definition key_le (k1 k2 : Z * list byte) : Prop :=
  (k1.1 < k2.1)%Z ∨ (k1.1 = k2.1 ∧ (bytes_Compare k1.2 k2.2 ≤ 0)%Z).

End ApiTesting.

Module Samples.
Import Registry.

(** ** Concrete inputs for the examples *)

(** A stand-in for the key parser: it accepts exactly the two-byte keys. *)
Definition sampleCrypto : CryptoLib :=
  λ pub,
    match pub with
    | [x; y] => Some {| X := Z.of_N (Byte.to_N x); Y := Z.of_N (Byte.to_N y) |}
    | _ => None
    end.

Definition rawNode (i : N) (key : list byte) (addr : string) (healthy : bool)
  : NodesNodeWithId :=
  {| NodeId := i;
     RawNode := {| SigningKeyPub := key; RawHttpAddress := addr;
                   RawIsHealthy := healthy |} |}.

Definition n0Raw := rawNode 0 [x01; x02] "http://n0.example" true.
Definition n1Raw := rawNode 1 [x01; x02] "https://n1.example" true.
Definition n1RawUnhealthy := rawNode 1 [x01; x02] "https://n1.example" false.
Definition n2Raw := rawNode 2 [x03; x04] "https://n2.example" true.

(** The invalid entry of scenario S5: key "not-a-key", address "ftp://x". *)
Definition n3Raw :=
  rawNode 3 [x6e; x6f; x74; x2d; x61; x2d; x6b; x65; x79] "ftp://x" true.

Definition convert := @convertNode sampleCrypto.

(** The registry after [Start] has loaded a first snapshot. *)
Definition started (raws : list NodesNodeWithId) : SmartContractRegistry :=
  (@Start sampleCrypto 0 (inl raws) emptyRegistry).1.

(** Scenario S4: [n1] is loaded, a subscriber asks for the changes of id 1,
    and the next tick brings [n1] unhealthy together with a new [n2]. *)
Definition historyS4 : list Action :=
  [DoStart 0 (inl [n1Raw]); DoOnChangedNode 1;
   DoTick (inl [n1RawUnhealthy; n2Raw])].

Definition subscribedS4 : SmartContractRegistry :=
  OnChangedNode 1 (started [n1Raw]).

(** A snapshot that lists id 1 twice, with different values, refreshed twice
    into a fresh registry that has a subscriber for id 1. *)
Definition duplicateSnapshot : list NodesNodeWithId :=
  [n1Raw; n1RawUnhealthy].

Definition afterFirstRefresh : SmartContractRegistry :=
  (@refreshData sampleCrypto (inl duplicateSnapshot)
     (OnChangedNode 1 emptyRegistry)).1.

Definition afterSecondRefresh : SmartContractRegistry :=
  (@refreshData sampleCrypto (inl duplicateSnapshot) afterFirstRefresh).1.

(** A replica for the syncer: the events it stores; [Get] finds the event of
    the topic that carries the requested content id. *)
Definition sampleNode := list Crdt.Event.

Definition sampleStore : Crdt.NodeStore sampleNode :=
  λ n t cid,
    match
      List.find
        (λ ev, bool_decide (Crdt.EventTopic ev = t ∧ Crdt.Cid ev = cid)) n
    with
    | Some ev => inl ev
    | None => inr "not found"
    end.

Definition ev1 : Crdt.Event :=
  {| Crdt.Cid := [x01]; Crdt.Links := [];
     Crdt.EventTopic := "t0"; Crdt.Payload := [x68; x69] |}.

Definition ev2 : Crdt.Event :=
  {| Crdt.Cid := [x02]; Crdt.Links := [[x01]];
     Crdt.EventTopic := "t0"; Crdt.Payload := [x68] |}.

Definition sampleSyncer : Crdt.randomTopicSyncer sampleNode :=
  {| Crdt.syncer := {| Crdt.syncerNodes := [[ev1]; [ev1; ev2]] |};
     Crdt.node := [ev1]; Crdt.topic := "t0" |}.

(** An envelope with the given timestamp. *)
Definition envelope (ts : Z) : ApiTesting.Envelope :=
  {| ApiTesting.ContentTopic := "t"; ApiTesting.TimestampNs := ts;
     ApiTesting.Message := [x6d] |}.

(** The same envelope on another topic: same key, different envelope. *)
Definition envelopeOn (topic : string) (ts : Z) : ApiTesting.Envelope :=
  {| ApiTesting.ContentTopic := topic; ApiTesting.TimestampNs := ts;
     ApiTesting.Message := [x6d] |}.

(** A stand-in for the multihash: the payload itself. *)
Definition sampleHash : Crdt.ContentAddress := λ _ _ payload, payload.

Definition hi : Crdt.Event :=
  {| Crdt.Cid := [x68; x69]; Crdt.Links := [];
     Crdt.EventTopic := "t0"; Crdt.Payload := [x68; x69] |}.

Definition hiBack : Crdt.Event :=
  {| Crdt.Cid := [x62]; Crdt.Links := [[x68; x69]];
     Crdt.EventTopic := "t0"; Crdt.Payload := [x62] |}.

(** An event whose content id is not the one of its content. *)
Definition forged : Crdt.Event :=
  {| Crdt.Cid := [x62]; Crdt.Links := [];
     Crdt.EventTopic := "t0"; Crdt.Payload := [x66] |}.

(** Two replicas: the first has been handed a forged event before the
    genuine one. *)
Definition sampleNetwork : list (list Crdt.Event) :=
  [[hi; forged; hiBack]; [hi]].

(** A syncer built the way the replication tests build it. *)
Definition builtSyncer : Crdt.randomTopicSyncer sampleNode :=
  Crdt.NewTopic "t0" [ev1]
    (Crdt.AddNode [ev1; ev2] (Crdt.AddNode [ev1] Crdt.newRandomSyncer)).

(** A third node with the next id, an empty key and no scheme. *)
Definition n2RawInvalid := rawNode 2 [] "x" false.

End Samples.

(** * Properties *)

Module RegistryFacts.
Import Registry Samples.

(** ** Go strings *)

Example HasPrefix_https : HasPrefix "https://n1.example" "https://" = true.
Proof. reflexivity. Qed.

Example HasPrefix_ftp :
  HasPrefix "ftp://x" "http://" = false ∧ HasPrefix "ftp://x" "https://" = false.
Proof. split; reflexivity. Qed.

Example HasPrefix_too_short : HasPrefix "http:/" "http://" = false.
Proof. reflexivity. Qed.

(** ** GetNodes *)

Lemma slice_store_length idx node sl sl' :
  slice_store idx node sl = Some sl' → length sl' = length sl.
Proof.
  unfold slice_store. case_decide; [|done].
  intros [= <-]. by rewrite length_insert.
Qed.

Lemma GetNodes_loop_length entries : ∀ sl sl',
  GetNodes_loop entries sl = Some sl' → length sl' = length sl.
Proof.
  induction entries as [|[idx nd] rest IH]; intros sl sl'; simpl.
  - by intros [= <-].
  - destruct (slice_store idx nd sl) as [sl1|] eqn:Hst; [|done].
    intros Hloop. rewrite (IH _ _ Hloop). by eapply slice_store_length.
Qed.

Lemma GetNodes_loop_panics entries : ∀ sl,
  GetNodes_loop entries sl = None ↔
  ∃ idx nd, (idx, nd) ∈ entries ∧ length sl ≤ N.to_nat idx.
Proof.
  induction entries as [|[idx nd] rest IH]; intros sl; simpl.
  - split; [done|]. intros (? & ? & Hin & _). by apply elem_of_nil in Hin.
  - destruct (slice_store idx nd sl) as [sl1|] eqn:Hst.
    + rewrite IH, (slice_store_length _ _ _ _ Hst).
      unfold slice_store in Hst. case_decide; [|done].
      split.
      * intros (i & n & Hin & Hle). exists i, n. split; [by right|done].
      * intros (i & n & Hin & Hle). apply elem_of_cons in Hin as [[= -> ->]|Hin].
        -- lia.
        -- by exists i, n.
    + unfold slice_store in Hst. case_decide; [done|].
      split; [|done]. intros _. exists idx, nd. split; [by left|lia].
Qed.

Lemma GetNodes_loop_untouched entries : ∀ sl sl' (j : nat),
  GetNodes_loop entries sl = Some sl' →
  (∀ idx nd, (idx, nd) ∈ entries → N.to_nat idx ≠ j) →
  sl' !! j = sl !! j.
Proof.
  induction entries as [|[idx nd] rest IH]; intros sl sl' j; simpl.
  - by intros [= <-].
  - destruct (slice_store idx nd sl) as [sl1|] eqn:Hst; [|done].
    intros Hloop Hne. rewrite (IH _ _ _ Hloop).
    + unfold slice_store in Hst. case_decide; [|done].
      injection Hst as <-. apply list_lookup_insert_ne.
      apply (Hne idx nd). by left.
    + intros i n Hin. apply (Hne i n). by right.
Qed.

Lemma GetNodes_loop_lookup entries : ∀ sl sl',
  NoDup entries.*1 →
  GetNodes_loop entries sl = Some sl' →
  ∀ idx nd, (idx, nd) ∈ entries → sl' !! N.to_nat idx = Some nd.
Proof.
  induction entries as [|[idx nd] rest IH]; intros sl sl' Hnd; simpl.
  - intros _ ?? Hin. by apply elem_of_nil in Hin.
  - destruct (slice_store idx nd sl) as [sl1|] eqn:Hst; [|done].
    intros Hloop i n Hin.
    simpl in Hnd. apply NoDup_cons in Hnd as [Hfresh Hnd].
    apply elem_of_cons in Hin as [[= -> ->]|Hin].
    + rewrite (GetNodes_loop_untouched _ _ _ (N.to_nat idx) Hloop).
      * unfold slice_store in Hst. case_decide; [|done].
        injection Hst as <-. by apply list_lookup_insert_eq.
      * intros i n Hin Heq. apply Hfresh.
        apply N2Nat.inj in Heq as ->.
        apply list_elem_of_fmap. by exists (idx, n).
    + by eapply IH.
Qed.

(** Go ranges over a map in an unspecified order; the outcome of the loop
    does not depend on it. *)
Lemma GetNodes_loop_any_order entries entries' sl :
  entries ≡ₚ entries' → NoDup entries.*1 →
  GetNodes_loop entries sl = GetNodes_loop entries' sl.
Proof.
  intros Hperm Hnd.
  assert (Hnd' : NoDup entries'.*1) by (by rewrite <- Hperm).
  destruct (GetNodes_loop entries sl) as [sl1|] eqn:H1,
           (GetNodes_loop entries' sl) as [sl2|] eqn:H2; [|exfalso..|done].
  - f_equal. apply list_eq. intros j.
    destruct (decide (N.of_nat j ∈ entries.*1)) as [Hin|Hno].
    + apply list_elem_of_fmap in Hin as ([idx nd] & Hj & Hin). simpl in Hj.
      rewrite <- (Nat2N.id j), Hj.
      rewrite (GetNodes_loop_lookup _ _ _ Hnd H1 idx nd Hin).
      rewrite (GetNodes_loop_lookup _ _ _ Hnd' H2 idx nd); [done|].
      by rewrite <- Hperm.
    + assert (∀ idx nd, (idx, nd) ∈ entries → N.to_nat idx ≠ j) as Hne.
      { intros idx nd Hin Heq. apply Hno. apply list_elem_of_fmap.
        exists (idx, nd). split; [|done]. simpl. rewrite <- Heq.
        by rewrite N2Nat.id. }
      rewrite (GetNodes_loop_untouched _ _ _ j H1),
              (GetNodes_loop_untouched _ _ _ j H2); [done| |done].
      intros idx nd Hin. apply (Hne idx nd). by rewrite Hperm.
  - apply GetNodes_loop_panics in H2 as (idx & nd & Hin & Hle).
    assert (GetNodes_loop entries sl = None) as Hn; [|congruence].
    apply GetNodes_loop_panics. exists idx, nd. by rewrite Hperm.
  - apply GetNodes_loop_panics in H1 as (idx & nd & Hin & Hle).
    assert (GetNodes_loop entries' sl = None) as Hn; [|congruence].
    apply GetNodes_loop_panics. exists idx, nd. by rewrite <- Hperm.
Qed.

(** [GetNodes] panics exactly when some id of the roster is not below the
    number of nodes. *)
Lemma GetNodes_panics_iff (s : SmartContractRegistry) :
  (∃ msg, GetNodes s = Panicked msg) ↔
  ∃ idx, idx ∈ dom (nodes s) ∧ (N.of_nat (size (nodes s)) ≤ idx)%N.
Proof.
  unfold GetNodes.
  destruct (GetNodes_loop _ _) as [sl|] eqn:Hloop.
  - split; [by intros [? [=]]|].
    intros (idx & [nd Hnd]%elem_of_dom & Hle).
    assert (GetNodes_loop (map_to_list (nodes s))
              (replicate (size (nodes s)) zeroNode) = None) as Hnone; [|congruence].
    apply GetNodes_loop_panics. exists idx, nd. split.
    + by apply elem_of_map_to_list.
    + rewrite length_replicate. lia.
  - split; [|by eauto]. intros _.
    apply GetNodes_loop_panics in Hloop as (idx & nd & Hin & Hle).
    exists idx. split.
    + apply elem_of_dom. exists nd. by apply elem_of_map_to_list.
    + rewrite length_replicate in Hle. lia.
Qed.

(** When it returns, the slice holds every node at the index of its id. *)
Lemma GetNodes_returns_lookup (s : SmartContractRegistry) sl err :
  GetNodes s = Returned (sl, err) →
  length sl = size (nodes s) ∧
  ∀ idx nd, nodes s !! idx = Some nd → sl !! N.to_nat idx = Some nd.
Proof.
  unfold GetNodes.
  destruct (GetNodes_loop _ _) as [sl0|] eqn:Hloop; [|done].
  intros [= <- <-]. split.
  - rewrite (GetNodes_loop_length _ _ _ Hloop). apply length_replicate.
  - intros idx nd Hnd. eapply GetNodes_loop_lookup; [|done|].
    + apply NoDup_fst_map_to_list.
    + by apply elem_of_map_to_list.
Qed.

(** When it returns, the slice is the roster's nodes, each of them once. *)
Lemma GetNodes_returns_roster (s : SmartContractRegistry) sl err :
  GetNodes s = Returned (sl, err) → sl ≡ₚ (map_to_list (nodes s)).*2.
Proof.
  intros Hret. apply GetNodes_returns_lookup in Hret as [Hlen Hlk].
  set (pairs := imap (λ j nd, (N.of_nat j, nd)) sl).
  assert (map_to_list (nodes s) ≡ₚ pairs) as ->.
  { apply submseteq_length_Permutation.
    - apply NoDup_submseteq; [apply NoDup_map_to_list|].
      intros [idx nd] Hin%elem_of_map_to_list.
      rewrite <- (N2Nat.id idx).
      apply (elem_of_lookup_imap_2 (λ j nd, (N.of_nat j, nd))).
      by apply Hlk.
    - unfold pairs. rewrite length_imap, length_map_to_list. lia. }
  unfold pairs. rewrite fmap_imap.
  rewrite (imap_ext _ (const id)) by done.
  by rewrite imap_const, list_fmap_id.
Qed.

(** C1 (fails on the code): [GetNodes] should return the nodes of the roster
    whatever their ids are. It uses the key of each map entry as the index
    into a slice of [len(s.nodes)] elements: after [Start] has loaded the
    single node [n1], of id 1, the roster is [{1 ↦ n1}] and [GetNodes] panics
    with an index out of range instead of returning [[n1]]. *)
Theorem GetNodes_panics_on_roster_with_id_1 :
  nodes (started [n1Raw]) = {[ 1%N := convert n1Raw ]}
  ∧ GetNodes (started [n1Raw]) = Panicked "index out of range".
Proof. split; vm_compute; reflexivity. Qed.

(** C10: whenever [GetNodes] returns, its error result is [nil]. *)
Theorem GetNodes_error_is_nil (s : SmartContractRegistry) sl err :
  GetNodes s = Returned (sl, err) → err = None.
Proof.
  unfold GetNodes. destruct (GetNodes_loop _ _); [|done]. by intros [= _ <-].
Qed.

Lemma GetNodes_error_is_nil_witness :
  GetNodes (started [n0Raw]) = Returned ([convert n0Raw], None)
  ∧ (None : option error) = None.
Proof.
  split; [vm_compute; reflexivity|].
  apply (GetNodes_error_is_nil (started [n0Raw]) [convert n0Raw] None).
  vm_compute; reflexivity.
Defined.

(** ** Node equality *)

Lemma Equals_refl n : Equals n n = true.
Proof.
  unfold Equals, PublicKey_Equal.
  rewrite N.eqb_refl, String.eqb_refl, !Bool.eqb_reflx.
  destruct (SigningKey n) as [k|]; [|done].
  by rewrite !Z.eqb_refl.
Qed.

Lemma Equals_eq n other : Equals n other = true → n = other.
Proof.
  unfold Equals, PublicKey_Equal.
  destruct n as [i k a h v], other as [i' k' a' h' v']; simpl.
  rewrite !andb_true_iff.
  intros [[[[Hi Ha] Hh] Hv] Hk].
  apply N.eqb_eq in Hi as ->. apply String.eqb_eq in Ha as ->.
  apply Bool.eqb_prop in Hh as ->. apply Bool.eqb_prop in Hv as ->.
  destruct k as [[x y]|], k' as [[x' y']|]; try done.
  simpl in Hk. apply andb_true_iff in Hk as [Hx Hy].
  apply Z.eqb_eq in Hx as ->. by apply Z.eqb_eq in Hy as ->.
Qed.

Lemma Equals_false_ne n other : Equals n other = false ↔ n ≠ other.
Proof.
  split.
  - intros Hf ->. by rewrite Equals_refl in Hf.
  - intros Hne. destruct (Equals n other) eqn:E; [|done].
    by apply Equals_eq in E.
Qed.

Lemma filter_ext_elem {A} (P Q : A → Prop)
    `{∀ x, Decision (P x)} `{∀ x, Decision (Q x)} (l : list A) :
  (∀ x, x ∈ l → P x ↔ Q x) → filter P l = filter Q l.
Proof.
  induction l as [|a l IH]; intros Hpq; [done|].
  assert (filter P l = filter Q l) as Hl.
  { apply IH. intros x Hx. apply Hpq. by right. }
  destruct (decide (P a)) as [Ha|Ha].
  - rewrite !filter_cons_True; [by f_equal|by apply Hpq; [left|]|done].
  - rewrite !filter_cons_False; [done| |done].
    intros Hq. apply Ha. apply Hpq; [by left|done].
Qed.

Lemma filter_is_new_insert (m : gmap N Node) node old (l : list Node) :
  m !! NodeID node = Some old →
  filter (is_new (<[NodeID node := node]> m)) l = filter (is_new m) l.
Proof.
  intros Hold. apply list_filter_iff. intros n. unfold is_new.
  destruct (decide (NodeID node = NodeID n)) as [Heq|Hne].
  - rewrite <- Heq, lookup_insert_eq, Hold. done.
  - by rewrite lookup_insert_ne.
Qed.

Lemma refreshData_loop_spec fromContract : ∀ s acc,
  refreshData_loop fromContract s acc =
  ({| ctx := ctx s;
      nodes := storeNodes (nodes s) (changed_in fromContract (nodes s));
      changedNodeNotifiers := changedNodeNotifiers s;
      emitted := emitted s ++
        (ChangedNodeEv <$> filter (λ n, NodeID n ∈ changedNodeNotifiers s)
                             (changed_in fromContract (nodes s)));
      logged := logged s ++
        (InfoProcessingChangedNode <$> changed_in fromContract (nodes s));
      loopStarted := loopStarted s |},
   acc ++ filter (is_new (nodes s)) fromContract).
Proof.
  induction fromContract as [|node rest IH]; intros s acc; simpl.
  - destruct s; simpl. by rewrite !app_nil_r.
  - destruct (nodes s !! NodeID node) as [existingValue|] eqn:Hlk.
    + rewrite filter_cons_False by (unfold is_new; congruence).
      destruct (Equals node existingValue) eqn:Heq; simpl; [apply IH|].
      rewrite IH. unfold processChangedNode; simpl.
      case_decide as Hsub; simpl.
      * rewrite filter_cons_True by done. simpl.
        rewrite (filter_is_new_insert _ _ _ _ Hlk).
        by rewrite <- !app_assoc.
      * rewrite filter_cons_False by done.
        rewrite (filter_is_new_insert _ _ _ _ Hlk).
        by rewrite <- !app_assoc.
    + rewrite filter_cons_True by done.
      rewrite IH. by rewrite <- app_assoc.
Qed.

(** *** The roster written by a batch *)
Lemma storeNodes_cons m node l :
  storeNodes m (node :: l) = storeNodes (<[NodeID node := node]> m) l.
Proof. done. Qed.

Lemma storeNodes_lookup_congr l : ∀ (m m' : gmap N Node) i,
  m !! i = m' !! i → storeNodes m l !! i = storeNodes m' l !! i.
Proof.
  induction l as [|node l IH]; intros m m' i Hi; [done|].
  rewrite !storeNodes_cons. apply IH.
  destruct (decide (NodeID node = i)) as [<-|Hne].
  - by rewrite !lookup_insert_eq.
  - by rewrite !lookup_insert_ne.
Qed.

Lemma storeNodes_lookup_other l : ∀ (m : gmap N Node) i,
  i ∉ NodeID <$> l → storeNodes m l !! i = m !! i.
Proof.
  induction l as [|node l IH]; intros m i Hi; [done|].
  rewrite storeNodes_cons. rewrite fmap_cons, not_elem_of_cons in Hi.
  destruct Hi as [Hne Hi]. rewrite IH by done. by rewrite lookup_insert_ne.
Qed.

Lemma storeNodes_is_Some l : ∀ (m : gmap N Node) i,
  is_Some (m !! i) → is_Some (storeNodes m l !! i).
Proof.
  induction l as [|node l IH]; intros m i Hi; [done|].
  rewrite storeNodes_cons. apply IH.
  destruct (decide (NodeID node = i)) as [<-|Hne].
  - rewrite lookup_insert_eq. eauto.
  - by rewrite lookup_insert_ne.
Qed.

Lemma storeNodes_lookup_elem l : ∀ (m : gmap N Node) node,
  node ∈ l → is_Some (storeNodes m l !! NodeID node).
Proof.
  induction l as [|h l IH]; intros m node Hin; [by apply elem_of_nil in Hin|].
  rewrite storeNodes_cons. apply elem_of_cons in Hin as [->|Hin].
  - apply storeNodes_is_Some. rewrite lookup_insert_eq. eauto.
  - by apply IH.
Qed.

Lemma storeNodes_lookup_NoDup l : ∀ (m : gmap N Node) node,
  NoDup (NodeID <$> l) → node ∈ l → storeNodes m l !! NodeID node = Some node.
Proof.
  induction l as [|h l IH]; intros m node Hnd Hin; [by apply elem_of_nil in Hin|].
  rewrite storeNodes_cons. rewrite fmap_cons in Hnd.
  apply NoDup_cons in Hnd as [Hfresh Hnd].
  apply elem_of_cons in Hin as [->|Hin].
  - rewrite storeNodes_lookup_other by done. apply lookup_insert_eq.
  - by apply IH.
Qed.

Lemma storeNodes_filter (P : N → Prop) `{∀ i, Decision (P i)} l :
  ∀ (m : gmap N Node) i,
  storeNodes m (filter (λ n, P (NodeID n)) l) !! i =
  if decide (P i) then storeNodes m l !! i else m !! i.
Proof.
  induction l as [|h l IH]; intros m i.
  - simpl. by case_decide.
  - destruct (decide (P (NodeID h))) as [Hh|Hh].
    + rewrite filter_cons_True by done. rewrite !storeNodes_cons, IH.
      case_decide as Hi; [done|].
      rewrite lookup_insert_ne; [done|]. by intros <-.
    + rewrite filter_cons_False by done. rewrite storeNodes_cons, IH.
      case_decide as Hi; [|done].
      apply storeNodes_lookup_congr.
      rewrite lookup_insert_ne; [done|]. by intros <-.
Qed.

(** *** The nodes handed to [processChangedNode] *)
Lemma changed_in_elem fromContract : ∀ (m : gmap N Node) node,
  node ∈ changed_in fromContract m →
  node ∈ fromContract ∧ is_Some (m !! NodeID node).
Proof.
  induction fromContract as [|h rest IH]; intros m node; simpl.
  - intros Hin. by apply elem_of_nil in Hin.
  - destruct (m !! NodeID h) as [existingValue|] eqn:Hlk.
    + destruct (Equals h existingValue); simpl.
      * intros [? ?]%IH. split; [by right|done].
      * intros [->|Hin]%elem_of_cons.
        -- split; [by left|]. rewrite Hlk. eauto.
        -- apply IH in Hin as [? Hs]. split; [by right|].
           destruct (decide (NodeID h = NodeID node)) as [Heq|Hne].
           ++ rewrite <- Heq, Hlk. eauto.
           ++ by rewrite lookup_insert_ne in Hs.
    + intros [? ?]%IH. split; [by right|done].
Qed.

Lemma changed_in_complete fromContract : ∀ (m : gmap N Node) node old,
  node ∈ fromContract → m !! NodeID node = Some old →
  Equals node old = false →
  ∃ node', node' ∈ changed_in fromContract m ∧ NodeID node' = NodeID node.
Proof.
  induction fromContract as [|h rest IH]; intros m node old Hin Hold Hne.
  - by apply elem_of_nil in Hin.
  - simpl. destruct (decide (NodeID h = NodeID node)) as [Hid|Hid].
    + rewrite Hid, Hold.
      destruct (Equals h old) eqn:Heq; simpl.
      * apply elem_of_cons in Hin as [->|Hin]; [congruence|].
        by eapply IH.
      * exists h. split; [by left|done].
    + apply elem_of_cons in Hin as [->|Hin]; [done|].
      destruct (m !! NodeID h) as [existingValue|] eqn:Hlk.
      * destruct (Equals h existingValue); simpl.
        -- by eapply IH.
        -- destruct (IH (<[NodeID h := h]> m) node old) as (n' & ? & ?);
             [done|by rewrite lookup_insert_ne|done|].
           exists n'. split; [by right|done].
      * by eapply IH.
Qed.

Lemma changed_in_NoDup fromContract : ∀ (m : gmap N Node),
  NoDup (NodeID <$> fromContract) →
  changed_in fromContract m = filter (is_changed m) fromContract.
Proof.
  induction fromContract as [|h rest IH]; intros m Hnd; [done|].
  rewrite fmap_cons in Hnd. apply NoDup_cons in Hnd as [Hfresh Hnd].
  assert (Hrest : ∀ x, filter (is_changed (<[NodeID h := x]> m)) rest
                       = filter (is_changed m) rest).
  { intros x. apply filter_ext_elem.
    intros n Hn. unfold is_changed. rewrite lookup_insert_ne; [done|].
    intros Heq. apply Hfresh. rewrite Heq. by apply list_elem_of_fmap_2. }
  simpl. destruct (m !! NodeID h) as [existingValue|] eqn:Hlk.
  - destruct (Equals h existingValue) eqn:Heq; simpl.
    + rewrite filter_cons_False; [by apply IH|].
      unfold is_changed. rewrite Hlk. intros (o & [= <-] & ?). congruence.
    + rewrite filter_cons_True by (by exists existingValue).
      f_equal. rewrite IH by done. apply Hrest.
  - rewrite filter_cons_False; [by apply IH|].
    unfold is_changed. rewrite Hlk. by intros (o & [=] & _).
Qed.

(** *** The roster after a refresh *)
Lemma loop_roster_lookup fromContract : ∀ (m : gmap N Node) i,
  storeNodes m (changed_in fromContract m) !! i =
  if decide (is_Some (m !! i)) then storeNodes m fromContract !! i else m !! i.
Proof.
  induction fromContract as [|h rest IH]; intros m i.
  - simpl. by case_decide.
  - rewrite storeNodes_cons. cbn [changed_in].
    destruct (m !! NodeID h) as [existingValue|] eqn:Hlk.
    + destruct (Equals h existingValue) eqn:Heq; cbn [negb].
      * apply Equals_eq in Heq as ->.
        rewrite (insert_id m _ _ Hlk). apply IH.
      * rewrite storeNodes_cons, IH.
        destruct (decide (NodeID h = i)) as [<-|Hne].
        -- rewrite lookup_insert_eq, Hlk.
           rewrite !decide_True by eauto. done.
        -- by rewrite lookup_insert_ne.
    + rewrite IH. case_decide as Hi; [|done].
      apply storeNodes_lookup_congr. rewrite lookup_insert_ne; [done|].
      intros <-. rewrite Hlk in Hi. by destruct Hi.
Qed.

Lemma roster_after_refresh fromContract (m : gmap N Node) :
  storeNodes (storeNodes m (changed_in fromContract m))
             (filter (is_new m) fromContract)
  = storeNodes m fromContract.
Proof.
  apply map_eq. intros i.
  etrans.
  { exact (storeNodes_filter (λ j, m !! j = None) fromContract
             (storeNodes m (changed_in fromContract m)) i). }
  case_decide as Hi.
  - apply storeNodes_lookup_congr. rewrite loop_roster_lookup.
    rewrite decide_False; [done|]. rewrite Hi. by intros [? [=]].
  - rewrite loop_roster_lookup. rewrite decide_True; [done|].
    destruct (m !! i); [eauto|done].
Qed.

(** ** One refresh *)

Lemma refreshData_err `{CryptoLib} err s :
  refreshData (inr err) s = (s, Some err).
Proof. done. Qed.

Lemma refreshData_ok `{CryptoLib} raws s :
  let fromContract := convertNode <$> raws in
  let changed := changed_in fromContract (nodes s) in
  let newNodes := filter (is_new (nodes s)) fromContract in
  refreshData (inl raws) s =
  ({| ctx := ctx s;
      nodes := storeNodes (nodes s) fromContract;
      changedNodeNotifiers := changedNodeNotifiers s;
      emitted := emitted s ++
        (ChangedNodeEv <$> filter (λ n, NodeID n ∈ changedNodeNotifiers s)
                             changed) ++ new_event newNodes;
      logged := logged s ++
        (InfoProcessingChangedNode <$> changed) ++ new_log newNodes;
      loopStarted := loopStarted s |}, None).
Proof.
  intros fromContract changed newNodes.
  unfold refreshData, loadFromContract. fold fromContract.
  rewrite refreshData_loop_spec. fold changed newNodes. rewrite app_nil_l.
  rewrite <- (roster_after_refresh fromContract (nodes s)).
  fold changed newNodes.
  destruct newNodes as [|n0 rest]; simpl.
  - by rewrite !app_nil_r.
  - unfold processNewNodes, set_nodes, emit, log; simpl.
    by rewrite <- !app_assoc.
Qed.

Lemma announced_app_l i tr ext : announced i tr → announced i (tr ++ ext).
Proof.
  intros (batch & Hin & Hi). exists batch. split; [|done].
  apply elem_of_app. by left.
Qed.

Lemma new_before_change_app tr ext :
  new_before_change tr →
  (∀ pre node post, ext = pre ++ ChangedNodeEv node :: post →
                    announced (NodeID node) (tr ++ pre)) →
  new_before_change (tr ++ ext).
Proof.
  intros Htr Hext pre node post Heq.
  apply app_eq_inv in Heq as [(k & -> & Hk)|(k & -> & Hk)].
  - destruct k as [|ev k].
    + specialize (Hext [] node post). rewrite !app_nil_r in Hext.
      apply Hext. symmetry. exact Hk.
    + injection Hk as <- ->. by eapply Htr.
  - by eapply Hext.
Qed.

Lemma announces_roster_empty : announces_roster emptyRegistry.
Proof.
  split.
  - intros pre node post Heq. simpl in Heq. by destruct pre.
  - intros i [? Hi]. simpl in Hi. by rewrite lookup_empty in Hi.
Qed.

Lemma announces_roster_same s s' :
  emitted s' = emitted s → nodes s' = nodes s →
  announces_roster s → announces_roster s'.
Proof. unfold announces_roster. by intros -> ->. Qed.

Lemma elem_of_storeNodes_dom l : ∀ (m : gmap N Node) i,
  is_Some (storeNodes m l !! i) → is_Some (m !! i) ∨ i ∈ NodeID <$> l.
Proof.
  induction l as [|h l IH]; intros m i Hi; [by left|].
  rewrite storeNodes_cons in Hi. apply IH in Hi as [Hi|Hi].
  - destruct (decide (NodeID h = i)) as [<-|Hne].
    + right. rewrite fmap_cons. by left.
    + left. by rewrite lookup_insert_ne in Hi.
  - right. rewrite fmap_cons. by right.
Qed.

Lemma announces_roster_refreshData `{CryptoLib} allNodes s :
  announces_roster s → announces_roster (refreshData allNodes s).1.
Proof.
  intros [Hnbc Hann]. destruct allNodes as [raws|err]; [|done].
  rewrite refreshData_ok. cbn [fst emitted nodes].
  set (fromContract := convertNode <$> raws).
  set (newNodes := filter (is_new (nodes s)) fromContract).
  split.
  - apply new_before_change_app; [done|].
    intros pre node post Heq. apply announced_app_l, Hann.
    assert (ChangedNodeEv node ∈
              (ChangedNodeEv <$> filter (λ n, NodeID n ∈ changedNodeNotifiers s)
                 (changed_in fromContract (nodes s))) ++ new_event newNodes)
      as Hin.
    { rewrite Heq. apply elem_of_app. right. by left. }
    apply elem_of_app in Hin as [Hin|Hin].
    + apply list_elem_of_fmap in Hin as (n & [= <-] & Hn).
      apply list_elem_of_filter in Hn as [_ Hn].
      by apply changed_in_elem in Hn as [_ ?].
    + unfold new_event in Hin. destruct newNodes.
      * by apply elem_of_nil in Hin.
      * by apply list_elem_of_singleton in Hin.
  - intros i Hi. apply elem_of_storeNodes_dom in Hi as [Hi|Hi].
    + by apply announced_app_l, Hann.
    + destruct (nodes s !! i) as [v|] eqn:Hlk.
      { apply announced_app_l, Hann. eauto. }
      apply list_elem_of_fmap in Hi as (n & -> & Hn).
      assert (n ∈ newNodes) as Hnew by (by apply list_elem_of_filter).
      exists newNodes. split; [|by apply list_elem_of_fmap_2].
      apply elem_of_app. right. apply elem_of_app. right.
      unfold new_event. destruct newNodes; [by apply elem_of_nil in Hnew|].
      by left.
Qed.

Lemma announces_roster_act `{CryptoLib} a s :
  announces_roster s → announces_roster (act a s).
Proof.
  intros Hs. destruct a as [c allNodes|allNodes|nodeId]; simpl.
  - unfold Start.
    pose proof (announces_roster_refreshData allNodes (set_ctx c s)) as Hr.
    destruct (refreshData allNodes (set_ctx c s)) as [s1 [err|]]; simpl in *.
    + by apply Hr.
    + eapply announces_roster_same; [..|by apply Hr]; done.
  - unfold onTick.
    pose proof (announces_roster_refreshData allNodes s Hs) as Hr.
    destruct (refreshData allNodes s) as [s1 [err|]]; simpl in *; [|done].
    eapply announces_roster_same; [..|done]; done.
  - unfold OnChangedNode. case_decide; [done|].
    eapply announces_roster_same; [..|done]; done.
Qed.

Lemma announces_roster_run `{CryptoLib} history : ∀ s,
  announces_roster s → announces_roster (run history s).
Proof.
  unfold run. induction history as [|a history IH]; intros s Hs; [done|].
  simpl. by apply IH, announces_roster_act.
Qed.

(** ** The claims about the registry *)

(** C2: along every history that begins with a fresh registry ([Start], ticks
    of the refresh loop, subscriptions in between), a changed-node
    notification for an id is never emitted before a new-nodes notification
    that contains this id; and every id of the roster has been announced as
    new, since ids enter the roster through the new-nodes path only. *)
Theorem change_never_precedes_new `{CryptoLib} (history : list Action) :
  let s := run history emptyRegistry in
  (∀ pre node post,
     emitted s = pre ++ ChangedNodeEv node :: post →
     ∃ batch, NewNodesEv batch ∈ pre ∧ NodeID node ∈ NodeID <$> batch)
  ∧ (∀ i, is_Some (nodes s !! i) →
          ∃ batch, NewNodesEv batch ∈ emitted s ∧ i ∈ NodeID <$> batch).
Proof.
  exact (announces_roster_run history emptyRegistry announces_roster_empty).
Qed.

Lemma change_never_precedes_new_witness :
  emitted (@run sampleCrypto historyS4 emptyRegistry)
    = [NewNodesEv [convert n1Raw]] ++
      ChangedNodeEv (convert n1RawUnhealthy) :: [NewNodesEv [convert n2Raw]]
  ∧ ∃ batch, NewNodesEv batch ∈ [NewNodesEv [convert n1Raw]]
             ∧ NodeID (convert n1RawUnhealthy) ∈ NodeID <$> batch.
Proof.
  split; [vm_compute; reflexivity|].
  apply (proj1 (@change_never_precedes_new sampleCrypto historyS4)
           [NewNodesEv [convert n1Raw]] (convert n1RawUnhealthy)
           [NewNodesEv [convert n2Raw]]).
  vm_compute; reflexivity.
Defined.

(** C3: a successful refresh diffs the fetched snapshot against the roster by
    id. The ids that are not in memory are announced as new, all in one batch,
    after the changes; the ids in memory whose node differs are announced as
    changed through the notifier of the id, when the id has one; every node of
    the snapshot is written to the roster, and no id is removed from it. *)
Theorem refreshData_diffs_by_id `{CryptoLib} (s : SmartContractRegistry)
    (raws : list NodesNodeWithId) :
  let fromContract := convertNode <$> raws in
  let newNodes := filter (is_new (nodes s)) fromContract in
  let s' := (refreshData (inl raws) s).1 in
  (refreshData (inl raws) s).2 = None
  ∧ (∃ changed,
       emitted s' = emitted s ++ (ChangedNodeEv <$> changed) ++
                    match newNodes with [] => [] | _ => [NewNodesEv newNodes] end
       ∧ (∀ node, node ∈ changed →
            node ∈ fromContract ∧ is_Some (nodes s !! NodeID node)
            ∧ NodeID node ∈ changedNodeNotifiers s)
       ∧ (∀ node, node ∈ fromContract → is_changed (nodes s) node →
            NodeID node ∈ changedNodeNotifiers s →
            ∃ node', node' ∈ changed ∧ NodeID node' = NodeID node)
       ∧ (NoDup (NodeID <$> fromContract) →
            changed = filter (λ node, is_changed (nodes s) node
                                ∧ NodeID node ∈ changedNodeNotifiers s)
                        fromContract))
  ∧ nodes s' = storeNodes (nodes s) fromContract
  ∧ (∀ i, is_Some (nodes s !! i) → is_Some (nodes s' !! i))
  ∧ (∀ i, i ∉ NodeID <$> fromContract → nodes s' !! i = nodes s !! i).
Proof.
  intros fromContract newNodes s'. subst s'.
  rewrite refreshData_ok. cbn [fst snd emitted nodes].
  fold fromContract newNodes.
  split; [done|]. split; [|split; [done|split]].
  - exists (filter (λ n, NodeID n ∈ changedNodeNotifiers s)
              (changed_in fromContract (nodes s))).
    split; [done|]. split; [|split].
    + intros node [Hsub Hin]%list_elem_of_filter.
      apply changed_in_elem in Hin as [? ?]. done.
    + intros node Hin (old & Hold & Hne) Hsub.
      destruct (changed_in_complete fromContract (nodes s) node old)
        as (node' & Hin' & Hid); [done..|].
      exists node'. split; [|done].
      apply list_elem_of_filter. split; [|done]. by rewrite Hid.
    + intros Hnd. rewrite changed_in_NoDup by done.
      rewrite list_filter_filter. apply list_filter_iff. tauto.
  - intros i. apply storeNodes_is_Some.
  - intros i. apply storeNodes_lookup_other.
Qed.

Lemma refreshData_diffs_by_id_witness :
  ∃ changed,
    emitted (@refreshData sampleCrypto (inl [n1RawUnhealthy; n2Raw])
               subscribedS4).1
    = emitted subscribedS4 ++ (ChangedNodeEv <$> changed)
      ++ [NewNodesEv [convert n2Raw]]
    ∧ changed = [convert n1RawUnhealthy].
Proof.
  destruct (@refreshData_diffs_by_id sampleCrypto subscribedS4
              [n1RawUnhealthy; n2Raw])
    as (_ & (changed & Hem & _ & _ & Hexact) & _).
  exists changed. split; [exact Hem|].
  rewrite Hexact; [vm_compute; reflexivity|].
  apply (bool_decide_unpack _). vm_compute. exact I.
Defined.

(** C4: when the initial fetch fails, [Start] returns that error and does not
    start the refresh loop; when it succeeds, [Start] returns no error and
    starts the loop; and these are the only ways for [Start] to fail or to
    succeed. *)
Theorem Start_fails_without_initial_roster `{CryptoLib} (c : Ctx)
    (s : SmartContractRegistry) :
  (∀ err, Start c (inr err) s = (set_ctx c s, Some err)
          ∧ loopStarted (Start c (inr err) s).1 = loopStarted s)
  ∧ (∀ raws, (Start c (inl raws) s).2 = None
             ∧ loopStarted (Start c (inl raws) s).1 = true)
  ∧ (∀ allNodes, (Start c allNodes s).2 = None ↔ ∃ raws, allNodes = inl raws)
  ∧ (∀ allNodes, loopStarted s = false →
       (loopStarted (Start c allNodes s).1 = true
        ↔ ∃ raws, allNodes = inl raws)).
Proof.
  assert (Hok : ∀ raws, (Start c (inl raws) s).2 = None
                        ∧ loopStarted (Start c (inl raws) s).1 = true).
  { intros raws. unfold Start. by rewrite refreshData_ok. }
  split; [done|]. split; [done|]. split.
  - intros [raws|err].
    + split; [by eauto|]. intros _. apply Hok.
    + split; [done|]. by intros [? [=]].
  - intros [raws|err] Hs.
    + split; [by eauto|]. intros _. apply Hok.
    + split; [|by intros [? [=]]].
      unfold Start. rewrite refreshData_err. simpl. congruence.
Qed.

Lemma Start_fails_without_initial_roster_witness :
  loopStarted emptyRegistry = false
  ∧ (loopStarted (@Start sampleCrypto 7 (inl [n1Raw]) emptyRegistry).1 = true
     ↔ ∃ raws, (inl [n1Raw] : AllNodesResult) = inl raws).
Proof.
  split; [reflexivity|].
  apply (proj2 (proj2 (proj2
    (@Start_fails_without_initial_roster sampleCrypto 7 emptyRegistry)))).
  reflexivity.
Defined.

(** C5: a tick whose fetch fails leaves the roster unchanged and emits
    nothing; the error is logged, and the loop goes on with the next event. *)
Theorem failed_tick_retains_roster `{CryptoLib} (s : SmartContractRegistry)
    (err : error) (rest : list LoopEvent) :
  refreshData (inr err) s = (s, Some err)
  ∧ onTick (inr err) s = log (ErrorFailedToRefresh err) s
  ∧ nodes (onTick (inr err) s) = nodes s
  ∧ emitted (onTick (inr err) s) = emitted s
  ∧ logged (onTick (inr err) s) = logged s ++ [ErrorFailedToRefresh err]
  ∧ refreshLoop (TickerC (inr err) :: rest) s
    = refreshLoop rest (log (ErrorFailedToRefresh err) s).
Proof. done. Qed.

(** C6: [IsValidConfig] is true exactly when the signing key unmarshals and
    the address starts with "http://" or "https://"; it depends on the key
    bytes and the address of the raw node only; converting never fails, and a
    refresh stores every node of the snapshot in the roster, valid or not. *)
Theorem convertNode_valid_config `{CryptoLib} (rawNode : NodesNodeWithId) :
  (IsValidConfig (convertNode rawNode) = true ↔
     is_Some (UnmarshalPubkey (SigningKeyPub (RawNode rawNode)))
     ∧ (HasPrefix (RawHttpAddress (RawNode rawNode)) "http://" = true
        ∨ HasPrefix (RawHttpAddress (RawNode rawNode)) "https://" = true))
  ∧ (∀ rawNode',
       SigningKeyPub (RawNode rawNode') = SigningKeyPub (RawNode rawNode) →
       RawHttpAddress (RawNode rawNode') = RawHttpAddress (RawNode rawNode) →
       IsValidConfig (convertNode rawNode')
       = IsValidConfig (convertNode rawNode))
  ∧ (∀ raws, loadFromContract (inl raws) = inl (convertNode <$> raws))
  ∧ (∀ s raws, rawNode ∈ raws →
       (refreshData (inl raws) s).2 = None
       ∧ is_Some (nodes (refreshData (inl raws) s).1 !! NodeId rawNode)
       ∧ (NoDup (NodeId <$> raws) →
          nodes (refreshData (inl raws) s).1 !! NodeId rawNode
          = Some (convertNode rawNode))).
Proof.
  split; [|split; [|split]].
  - unfold convertNode; simpl.
    rewrite is_Some_alt.
    destruct (UnmarshalPubkey _) as [key|],
             (HasPrefix _ "https://"), (HasPrefix _ "http://"); simpl;
      intuition congruence.
  - intros rawNode' Hk Ha. unfold convertNode; simpl. by rewrite Hk, Ha.
  - done.
  - intros s raws Hin. rewrite refreshData_ok. cbn [fst snd nodes].
    assert (convertNode rawNode ∈ convertNode <$> raws) as Hin'
      by (by apply list_elem_of_fmap_2).
    split; [done|]. split.
    + by apply (storeNodes_lookup_elem _ _ _ Hin').
    + intros Hnd.
      apply (storeNodes_lookup_NoDup _ (nodes s) _) in Hin'; [done|].
      by rewrite <- list_fmap_compose.
Qed.

Lemma convertNode_valid_config_witness :
  n3Raw ∈ [n0Raw; n3Raw]
  ∧ NoDup (NodeId <$> [n0Raw; n3Raw])
  ∧ nodes (@refreshData sampleCrypto (inl [n0Raw; n3Raw]) emptyRegistry).1
      !! NodeId n3Raw = Some (convert n3Raw)
  ∧ IsValidConfig (convert n3Raw) = false.
Proof.
  assert (Hin : n3Raw ∈ [n0Raw; n3Raw]) by (right; left).
  assert (Hnd : NoDup (NodeId <$> [n0Raw; n3Raw])).
  { apply (bool_decide_unpack _). vm_compute. exact I. }
  split; [exact Hin|]. split; [exact Hnd|]. split; [|reflexivity].
  exact (proj2 (proj2 (proj2 (proj2 (proj2
           (@convertNode_valid_config sampleCrypto n3Raw)))
           emptyRegistry [n0Raw; n3Raw] Hin)) Hnd).
Defined.

Lemma refreshData_loop_settled fromContract : ∀ s acc,
  (∀ node, node ∈ fromContract → nodes s !! NodeID node = Some node) →
  refreshData_loop fromContract s acc = (s, acc).
Proof.
  induction fromContract as [|node rest IH]; intros s acc Hall; [done|].
  simpl. rewrite (Hall node) by (by left). rewrite Equals_refl. simpl.
  apply IH. intros n Hn. apply Hall. by right.
Qed.

Lemma storeNodes_lookup_written l : ∀ (m m' : gmap N Node) i,
  i ∈ NodeID <$> l → storeNodes m l !! i = storeNodes m' l !! i.
Proof.
  induction l as [|h l IH]; intros m m' i Hi; [by apply elem_of_nil in Hi|].
  rewrite !storeNodes_cons.
  destruct (decide (i ∈ NodeID <$> l)) as [Hl|Hl]; [by apply IH|].
  rewrite !storeNodes_lookup_other by done.
  rewrite fmap_cons in Hi. apply elem_of_cons in Hi as [->|Hi]; [|done].
  by rewrite !lookup_insert_eq.
Qed.

Lemma storeNodes_twice l (m : gmap N Node) :
  storeNodes (storeNodes m l) l = storeNodes m l.
Proof.
  apply map_eq. intros i.
  destruct (decide (i ∈ NodeID <$> l)) as [Hi|Hi].
  - by apply storeNodes_lookup_written.
  - by rewrite storeNodes_lookup_other.
Qed.

(** C9 (amended): a second refresh with the same snapshot leaves the roster
    map as the first one left it; and when the ids of the snapshot are
    pairwise distinct it finds no new and no unequal id: it emits nothing and
    leaves the whole registry unchanged. *)
Theorem refresh_twice_is_idempotent `{CryptoLib} (s : SmartContractRegistry)
    (raws : list NodesNodeWithId) :
  let s1 := (refreshData (inl raws) s).1 in
  nodes (refreshData (inl raws) s1).1 = nodes s1
  ∧ (NoDup (NodeId <$> raws) → refreshData (inl raws) s1 = (s1, None)).
Proof.
  intros s1. subst s1. split.
  - rewrite !refreshData_ok. cbn [fst nodes]. apply storeNodes_twice.
  - intros Hnd.
    rewrite (refreshData_ok raws s). cbn [fst].
    unfold refreshData, loadFromContract.
    rewrite refreshData_loop_settled; [done|].
    intros node Hin. cbn [nodes].
    apply storeNodes_lookup_NoDup; [|done].
    by rewrite <- list_fmap_compose.
Qed.

Lemma refresh_twice_is_idempotent_witness :
  NoDup (NodeId <$> [n1Raw; n2Raw])
  ∧ @refreshData sampleCrypto (inl [n1Raw; n2Raw])
      (@refreshData sampleCrypto (inl [n1Raw; n2Raw]) subscribedS4).1
    = ((@refreshData sampleCrypto (inl [n1Raw; n2Raw]) subscribedS4).1, None).
Proof.
  assert (Hnd : NoDup (NodeId <$> [n1Raw; n2Raw])).
  { apply (bool_decide_unpack _). vm_compute. exact I. }
  split; [exact Hnd|].
  exact (proj2 (@refresh_twice_is_idempotent sampleCrypto subscribedS4
                  [n1Raw; n2Raw]) Hnd).
Defined.

(** C9 as stated fails when the snapshot lists an id twice with different
    values: the second refresh finds each of the two nodes unequal to the one
    the roster holds at that moment, and notifies the subscriber twice. *)
Lemma refresh_twice_duplicate_ids_notifies_again :
  emitted afterFirstRefresh
    = [NewNodesEv [convert n1Raw; convert n1RawUnhealthy]]
  ∧ emitted afterSecondRefresh
    = emitted afterFirstRefresh ++ [ChangedNodeEv (convert n1Raw);
                                    ChangedNodeEv (convert n1RawUnhealthy)]
  ∧ emitted afterSecondRefresh ≠ emitted afterFirstRefresh.
Proof.
  split; [vm_compute; reflexivity|].
  split; [vm_compute; reflexivity|].
  vm_compute. discriminate.
Qed.

(** ** Histories *)

(** What holds of roster, notifiers and trace all along a history: it is
    enough that a subscription and a successful refresh keep it. *)
Lemma run_invariant `{CryptoLib}
    (P : gmap N Node → gset N → list Notification → Prop) :
  (∀ m ns tr i, P m ns tr → P m ({[ i ]} ∪ ns) tr) →
  (∀ s raws,
     P (nodes s) (changedNodeNotifiers s) (emitted s) →
     let s' := (refreshData (inl raws) s).1 in
     P (nodes s') (changedNodeNotifiers s') (emitted s')) →
  ∀ history s,
    P (nodes s) (changedNodeNotifiers s) (emitted s) →
    let s' := run history s in
    P (nodes s') (changedNodeNotifiers s') (emitted s').
Proof.
  intros Hsub Href history.
  assert (Hact : ∀ a s, P (nodes s) (changedNodeNotifiers s) (emitted s) →
            P (nodes (act a s)) (changedNodeNotifiers (act a s))
              (emitted (act a s))).
  { intros [c [raws|err]|[raws|err]|nodeId] s Hs; simpl.
    - unfold Start. specialize (Href (set_ctx c s) raws Hs).
      rewrite refreshData_ok in *. exact Href.
    - exact Hs.
    - unfold onTick. specialize (Href s raws Hs).
      rewrite refreshData_ok in *. exact Href.
    - exact Hs.
    - unfold OnChangedNode. case_decide; [done|]. by apply Hsub. }
  unfold run. induction history as [|a history IH]; intros s Hs; [done|].
  simpl. by apply IH, Hact.
Qed.

Lemma storeNodes_lookup_Some l : ∀ (m : gmap N Node) i node,
  storeNodes m l !! i = Some node →
  m !! i = Some node ∨ (node ∈ l ∧ NodeID node = i).
Proof.
  induction l as [|h l IH]; intros m i node Hlk; [by left|].
  rewrite storeNodes_cons in Hlk. apply IH in Hlk as [Hlk|[Hin Hid]].
  - destruct (decide (NodeID h = i)) as [<-|Hne].
    + rewrite lookup_insert_eq in Hlk. injection Hlk as ->.
      right. split; [by left|done].
    + rewrite lookup_insert_ne in Hlk by done. by left.
  - right. split; [by right|done].
Qed.

(** X1: along every history from a fresh registry, each node of the roster is
    stored under its own [NodeID]. *)
Theorem roster_keyed_by_NodeID `{CryptoLib} (history : list Action) i node :
  nodes (run history emptyRegistry) !! i = Some node → NodeID node = i.
Proof.
  revert i node.
  apply (run_invariant (λ m _ _, ∀ i node, m !! i = Some node → NodeID node = i)).
  - done.
  - intros s raws Hs. cbv beta zeta in *. intros i node.
    rewrite refreshData_ok. cbn [fst nodes].
    intros [Hlk|[_ Hid]]%storeNodes_lookup_Some; [by apply Hs|done].
  - intros i node Hlk. simpl in Hlk. by rewrite lookup_empty in Hlk.
Qed.

Lemma roster_keyed_by_NodeID_witness :
  nodes (@run sampleCrypto historyS4 emptyRegistry) !! 2%N
    = Some (convert n2Raw)
  ∧ NodeID (convert n2Raw) = 2%N.
Proof.
  split; [vm_compute; reflexivity|].
  apply (@roster_keyed_by_NodeID sampleCrypto historyS4 2%N (convert n2Raw)).
  vm_compute; reflexivity.
Defined.

(** X2: a history never removes an id from the roster, never drops a
    notifier, and only appends to what has been emitted. *)
Theorem history_only_grows `{CryptoLib} (history : list Action)
    (s : SmartContractRegistry) :
  let s' := run history s in
  (∀ i, is_Some (nodes s !! i) → is_Some (nodes s' !! i))
  ∧ changedNodeNotifiers s ⊆ changedNodeNotifiers s'
  ∧ emitted s `prefix_of` emitted s'.
Proof.
  apply (run_invariant (λ m ns tr,
           (∀ i, is_Some (nodes s !! i) → is_Some (m !! i))
           ∧ changedNodeNotifiers s ⊆ ns ∧ emitted s `prefix_of` tr)).
  - intros m ns tr i (? & Hns & ?). split; [done|]. split; [|done].
    intros x Hx. apply elem_of_union. right. by apply Hns.
  - intros s0 raws (Hn & Hns & Htr). cbv beta zeta. rewrite refreshData_ok.
    cbn [fst nodes changedNodeNotifiers emitted].
    split; [|split; [done|]].
    + intros i Hi. by apply storeNodes_is_Some, Hn.
    + etrans; [exact Htr|]. by apply prefix_app_r.
  - done.
Qed.

Lemma history_only_grows_witness :
  is_Some (nodes (started [n1Raw]) !! 1%N)
  ∧ is_Some (nodes (@run sampleCrypto [DoTick (inl [n2Raw])]
                      (started [n1Raw])) !! 1%N).
Proof.
  assert (Hi : is_Some (nodes (started [n1Raw]) !! 1%N)).
  { vm_compute. eauto. }
  split; [exact Hi|].
  exact (proj1 (@history_only_grows sampleCrypto [DoTick (inl [n2Raw])]
                  (started [n1Raw])) 1%N Hi).
Defined.

Lemma convertNode_config_sound `{CryptoLib} rawNode :
  config_sound (convertNode rawNode).
Proof.
  unfold config_sound, convertNode; simpl. rewrite is_Some_alt.
  destruct (UnmarshalPubkey _) as [key|],
           (HasPrefix _ "https://"), (HasPrefix _ "http://"); simpl;
    intuition congruence.
Qed.

(** What a successful refresh appends to the trace. *)
Lemma refresh_appends `{CryptoLib} raws s ev :
  ev ∈ emitted (refreshData (inl raws) s).1 →
  ev ∈ emitted s
  ∨ (∃ node, ev = ChangedNodeEv node ∧ node ∈ convertNode <$> raws
             ∧ is_Some (nodes s !! NodeID node)
             ∧ NodeID node ∈ changedNodeNotifiers s)
  ∨ (ev = NewNodesEv (filter (is_new (nodes s)) (convertNode <$> raws))
     ∧ filter (is_new (nodes s)) (convertNode <$> raws) ≠ []).
Proof.
  rewrite refreshData_ok. cbn [fst emitted].
  intros [Hin|[Hin|Hin]%elem_of_app]%elem_of_app; [by left|right..].
  - left. apply list_elem_of_fmap in Hin as (node & -> & Hn).
    apply list_elem_of_filter in Hn as [Hsub Hn].
    apply changed_in_elem in Hn as [? ?]. by exists node.
  - right. unfold new_event in Hin.
    destruct (filter _ _) as [|n0 rest] eqn:Hf; [by apply elem_of_nil in Hin|].
    apply list_elem_of_singleton in Hin. done.
Qed.

(** X3: along every history from a fresh registry, a node of the roster or
    of a notification that says [IsValidConfig] has a signing key and an http
    or https address. *)
Theorem valid_config_is_sound `{CryptoLib} (history : list Action) :
  let s := run history emptyRegistry in
  (∀ i node, nodes s !! i = Some node → config_sound node)
  ∧ (∀ ev node, ev ∈ emitted s → node ∈ notified ev → config_sound node).
Proof.
  apply (run_invariant (λ m _ tr,
           (∀ i node, m !! i = Some node → config_sound node)
           ∧ (∀ ev node, ev ∈ tr → node ∈ notified ev → config_sound node))).
  - done.
  - intros s raws [Hm Htr]. cbv beta zeta.
    assert (Hfc : ∀ node, node ∈ convertNode <$> raws → config_sound node).
    { intros node (raw & -> & _)%list_elem_of_fmap.
      apply convertNode_config_sound. }
    split.
    + intros i node. rewrite refreshData_ok. cbn [fst nodes].
      intros [Hlk|[Hin _]]%storeNodes_lookup_Some; [by eapply Hm|by apply Hfc].
    + intros ev node Hev Hnode.
      apply refresh_appends in Hev as [Hev|[(n & -> & Hn & _)|[-> _]]].
      * by eapply Htr.
      * apply list_elem_of_singleton in Hnode as ->. by apply Hfc.
      * simpl in Hnode. apply list_elem_of_filter in Hnode as [_ ?].
        by apply Hfc.
  - split.
    + intros i node Hlk. simpl in Hlk. by rewrite lookup_empty in Hlk.
    + intros ev node Hev. simpl in Hev. by apply elem_of_nil in Hev.
Qed.

Lemma valid_config_is_sound_witness :
  nodes (@run sampleCrypto historyS4 emptyRegistry) !! 2%N
    = Some (convert n2Raw)
  ∧ IsValidConfig (convert n2Raw) = true
  ∧ is_Some (SigningKey (convert n2Raw)).
Proof.
  assert (Hlk : nodes (@run sampleCrypto historyS4 emptyRegistry) !! 2%N
                = Some (convert n2Raw)) by (vm_compute; reflexivity).
  assert (Hv : IsValidConfig (convert n2Raw) = true) by reflexivity.
  split; [exact Hlk|]. split; [exact Hv|].
  exact (proj1 (proj1 (@valid_config_is_sound sampleCrypto historyS4)
                  2%N (convert n2Raw) Hlk Hv)).
Defined.

(** X4: the [NewNodes] notifier is never triggered with an empty batch. *)
Theorem new_batches_are_not_empty `{CryptoLib} (history : list Action)
    (batch : list Node) :
  NewNodesEv batch ∈ emitted (run history emptyRegistry) → batch ≠ [].
Proof.
  revert batch.
  apply (run_invariant (λ _ _ tr, ∀ batch, NewNodesEv batch ∈ tr → batch ≠ [])).
  - done.
  - intros s raws Htr. cbv beta zeta. intros batch Hev.
    apply refresh_appends in Hev as [Hev|[(n & [=] & _)|[[= ->] Hne]]];
      [by apply Htr|done].
  - intros batch Hev. simpl in Hev. by apply elem_of_nil in Hev.
Qed.

Lemma new_batches_are_not_empty_witness :
  NewNodesEv [convert n2Raw] ∈ emitted (@run sampleCrypto historyS4 emptyRegistry)
  ∧ [convert n2Raw] ≠ [].
Proof.
  assert (Hin : NewNodesEv [convert n2Raw]
                ∈ emitted (@run sampleCrypto historyS4 emptyRegistry)).
  { vm_compute. right. right. left. }
  split; [exact Hin|].
  exact (@new_batches_are_not_empty sampleCrypto historyS4 [convert n2Raw] Hin).
Defined.

(** The notifiers of a history are the ones it subscribed to. *)
Lemma run_notifiers `{CryptoLib} history : ∀ s,
  changedNodeNotifiers (run history s)
  = changedNodeNotifiers s ∪ list_to_set (subscribed_ids history).
Proof.
  unfold run. induction history as [|a history IH]; intros s.
  - simpl. by rewrite union_empty_r_L.
  - simpl. rewrite IH. clear IH.
    destruct a as [c [raws|err]|[raws|err]|nodeId]; simpl; [..|].
    + unfold Start. by rewrite refreshData_ok.
    + done.
    + unfold onTick. by rewrite refreshData_ok.
    + done.
    + rewrite (assoc_L (∪)). f_equal.
      unfold OnChangedNode. case_decide as Hin; simpl.
      * apply set_eq. intros x. rewrite elem_of_union, elem_of_singleton.
        split; [by left|]. by intros [?| ->].
      * apply (comm_L (∪)).
Qed.

(** X6: a changed-node notification is emitted for an id only if the history
    has subscribed to this id with [OnChangedNode]. *)
Theorem changed_only_if_subscribed `{CryptoLib} (history : list Action)
    (node : Node) :
  ChangedNodeEv node ∈ emitted (run history emptyRegistry) →
  NodeID node ∈ subscribed_ids history.
Proof.
  intros Hev.
  assert (NodeID node ∈ changedNodeNotifiers (run history emptyRegistry)) as Hn.
  { revert node Hev.
    apply (run_invariant (λ _ ns tr,
             ∀ node, ChangedNodeEv node ∈ tr → NodeID node ∈ ns)).
    - intros m ns tr i Htr node Hin. apply elem_of_union. right. by apply Htr.
    - intros s raws Htr. cbv beta zeta. intros node Hev.
      rewrite refreshData_ok at 1. cbn [fst changedNodeNotifiers].
      apply refresh_appends in Hev as [Hev|[(n & [= <-] & _ & _ & ?)|[[=] _]]];
        [by apply Htr|done].
    - intros node Hev. simpl in Hev. by apply elem_of_nil in Hev. }
  rewrite run_notifiers in Hn. simpl in Hn.
  apply elem_of_union in Hn as [Hn|Hn]; [by apply not_elem_of_empty in Hn|].
  by apply elem_of_list_to_set in Hn.
Qed.

Lemma changed_only_if_subscribed_witness :
  ChangedNodeEv (convert n1RawUnhealthy)
    ∈ emitted (@run sampleCrypto historyS4 emptyRegistry)
  ∧ NodeID (convert n1RawUnhealthy) ∈ subscribed_ids historyS4.
Proof.
  assert (Hin : ChangedNodeEv (convert n1RawUnhealthy)
                ∈ emitted (@run sampleCrypto historyS4 emptyRegistry)).
  { vm_compute. right. left. }
  split; [exact Hin|].
  exact (@changed_only_if_subscribed sampleCrypto historyS4
           (convert n1RawUnhealthy) Hin).
Defined.

Lemma refresh_appends_lookup `{CryptoLib} raws s k batch :
  emitted (refreshData (inl raws) s).1 !! k = Some (NewNodesEv batch) →
  emitted s !! k = Some (NewNodesEv batch)
  ∨ (length (emitted s) ≤ k
     ∧ k = length (emitted s)
           + length (filter (λ n, NodeID n ∈ changedNodeNotifiers s)
                       (changed_in (convertNode <$> raws) (nodes s)))
     ∧ batch = filter (is_new (nodes s)) (convertNode <$> raws)).
Proof.
  rewrite refreshData_ok. cbn [fst emitted].
  intros [Hk|[Hle Hk]]%lookup_app_Some; [by left|right].
  split; [done|].
  apply lookup_app_Some in Hk as [Hk|[Hle' Hk]].
  - apply list_lookup_fmap_Some in Hk as (n & [=] & _).
  - rewrite length_fmap in Hle', Hk. unfold new_event in Hk.
    destruct (filter (is_new _) _) as [|n0 rest] eqn:Hf; [done|].
    apply list_lookup_singleton_Some in Hk as [Hz [= <-]].
    split; [lia|done].
Qed.

(** X5: no id is announced as new by two different [NewNodes]
    notifications. *)
Theorem no_id_is_new_twice `{CryptoLib} (history : list Action)
    (j k : nat) (b1 b2 : list Node) (i : N) :
  j ≠ k →
  emitted (run history emptyRegistry) !! j = Some (NewNodesEv b1) →
  emitted (run history emptyRegistry) !! k = Some (NewNodesEv b2) →
  i ∈ NodeID <$> b1 → i ∉ NodeID <$> b2.
Proof.
  revert j k b1 b2 i.
  cut (let s := run history emptyRegistry in
       (∀ k b i, emitted s !! k = Some (NewNodesEv b) → i ∈ NodeID <$> b →
                 is_Some (nodes s !! i))
       ∧ (∀ j k b1 b2 i, j ≠ k →
            emitted s !! j = Some (NewNodesEv b1) →
            emitted s !! k = Some (NewNodesEv b2) →
            i ∈ NodeID <$> b1 → i ∉ NodeID <$> b2)).
  { intros [_ Hd]. exact Hd. }
  apply (run_invariant (λ m _ tr,
    (∀ k b i, tr !! k = Some (NewNodesEv b) → i ∈ NodeID <$> b →
              is_Some (m !! i))
    ∧ (∀ j k b1 b2 i, j ≠ k →
         tr !! j = Some (NewNodesEv b1) → tr !! k = Some (NewNodesEv b2) →
         i ∈ NodeID <$> b1 → i ∉ NodeID <$> b2))).
  - done.
  - intros s raws [Hdom Hdis]. cbv beta zeta.
    set (newNodes := filter (is_new (nodes s)) (convertNode <$> raws)).
    assert (Hfresh : ∀ i, i ∈ NodeID <$> newNodes → nodes s !! i = None).
    { intros i (n & -> & Hn)%list_elem_of_fmap.
      by apply list_elem_of_filter in Hn as [? _]. }
    split.
    + intros k b i Hk Hi.
      assert (nodes (refreshData (inl raws) s).1
              = storeNodes (nodes s) (convertNode <$> raws)) as ->
        by (by rewrite refreshData_ok).
      apply refresh_appends_lookup in Hk as [Hk|(_ & _ & ->)].
      * apply storeNodes_is_Some. by eapply Hdom.
      * apply list_elem_of_fmap in Hi as (n & -> & Hn).
        apply list_elem_of_filter in Hn as [_ Hn].
        by apply storeNodes_lookup_elem.
    + intros j k b1 b2 i Hjk Hj Hk Hi1 Hi2.
      apply refresh_appends_lookup in Hj as [Hj|(Hlej & Hj & ->)];
        apply refresh_appends_lookup in Hk as [Hk|(Hlek & Hk & ->)].
      * by apply (Hdis j k b1 b2 i).
      * apply Hfresh in Hi2. destruct (Hdom j b1 i Hj Hi1) as [? ?]. congruence.
      * apply Hfresh in Hi1. destruct (Hdom k b2 i Hk Hi2) as [? ?]. congruence.
      * congruence.
  - split; intros *; simpl; by rewrite ?lookup_nil.
Qed.

Lemma no_id_is_new_twice_witness :
  emitted (@run sampleCrypto historyS4 emptyRegistry) !! 0
    = Some (NewNodesEv [convert n1Raw])
  ∧ emitted (@run sampleCrypto historyS4 emptyRegistry) !! 2
    = Some (NewNodesEv [convert n2Raw])
  ∧ 1%N ∉ NodeID <$> [convert n2Raw].
Proof.
  assert (H0 : emitted (@run sampleCrypto historyS4 emptyRegistry) !! 0
               = Some (NewNodesEv [convert n1Raw])) by (vm_compute; reflexivity).
  assert (H2 : emitted (@run sampleCrypto historyS4 emptyRegistry) !! 2
               = Some (NewNodesEv [convert n2Raw])) by (vm_compute; reflexivity).
  split; [exact H0|]. split; [exact H2|].
  apply (@no_id_is_new_twice sampleCrypto historyS4 0 2
           [convert n1Raw] [convert n2Raw] 1%N); [lia|exact H0|exact H2|].
  vm_compute. left.
Defined.

Lemma same_but_log_refl s : same_but_log s s.
Proof. by repeat split. Qed.

Lemma same_but_log_log l s : same_but_log (log l s) s.
Proof. by repeat split. Qed.

Lemma same_but_log_onTick `{CryptoLib} allNodes s s' :
  same_but_log s s' → same_but_log (onTick allNodes s) (onTick allNodes s').
Proof.
  intros (Hc & Hn & Hns & Htr & Hl). unfold onTick.
  destruct allNodes as [raws|err].
  - rewrite !refreshData_ok. unfold same_but_log; simpl.
    by rewrite Hc, Hn, Hns, Htr, Hl.
  - rewrite !refreshData_err. by repeat split.
Qed.

Lemma same_but_log_refreshLoop `{CryptoLib} events : ∀ s s',
  same_but_log s s' →
  same_but_log (refreshLoop events s) (refreshLoop events s').
Proof.
  induction events as [|[|allNodes] rest IH]; intros s s' Hs; simpl; [done..|].
  by apply IH, same_but_log_onTick.
Qed.

(** X7: the ticks whose fetch fails leave no trace but in the log: without
    them the loop ends with the same roster, notifiers and notifications. *)
Theorem failed_ticks_leave_no_trace `{CryptoLib} (events : list LoopEvent)
    (s : SmartContractRegistry) :
  same_but_log (refreshLoop events s)
               (refreshLoop (filter (λ ev, ¬ failed_tick ev) events) s).
Proof.
  revert s. induction events as [|[|[raws|err]] rest IH]; intros s.
  - apply same_but_log_refl.
  - rewrite filter_cons_True by (simpl; tauto). apply same_but_log_refl.
  - rewrite filter_cons_True by (simpl; tauto). simpl. apply IH.
  - rewrite filter_cons_False by (simpl; tauto). simpl.
    destruct (IH s) as (Hc & Hn & Hns & Htr & Hl).
    destruct (same_but_log_refreshLoop rest
                (onTick (inr err) s) s) as (Hc' & Hn' & Hns' & Htr' & Hl').
    { unfold onTick. rewrite refreshData_err. apply same_but_log_log. }
    unfold same_but_log. by rewrite Hc', Hn', Hns', Htr', Hl'.
Qed.

Lemma changed_in_nil_agrees fromContract : ∀ (m : gmap N Node),
  changed_in fromContract m = [] →
  ∀ node old, node ∈ fromContract → m !! NodeID node = Some old → node = old.
Proof.
  intros m Hnil node old Hin Hold.
  destruct (Equals node old) eqn:Heq; [by apply Equals_eq|].
  destruct (changed_in_complete fromContract m node old Hin Hold Heq)
    as (node' & Hin' & _).
  rewrite Hnil in Hin'. by apply elem_of_nil in Hin'.
Qed.

(** X9: a successful refresh leaves the registry exactly as it was (roster,
    notifications and log) if and only if the roster already holds, for every
    node of the snapshot, the converted node under its id. *)
Theorem refresh_is_silent_iff_roster_agrees `{CryptoLib}
    (s : SmartContractRegistry) (raws : list NodesNodeWithId) :
  refreshData (inl raws) s = (s, None)
  ↔ ∀ rawNode, rawNode ∈ raws →
               nodes s !! NodeId rawNode = Some (convertNode rawNode).
Proof.
  split.
  - rewrite refreshData_ok. intros [= Hs] rawNode Hin.
    pose proof (f_equal emitted Hs) as Hem.
    pose proof (f_equal logged Hs) as Hlog. clear Hs.
    cbn [emitted logged] in Hem, Hlog.
    apply (f_equal length) in Hem, Hlog.
    rewrite !length_app, length_fmap in Hem.
    rewrite !length_app, length_fmap in Hlog.
    set (fromContract := convertNode <$> raws) in *.
    assert (changed_in fromContract (nodes s) = []) as Hchg.
    { apply length_zero_iff_nil. lia. }
    assert (filter (is_new (nodes s)) fromContract = []) as Hnew.
    { destruct (filter (is_new (nodes s)) fromContract) as [|n0 rest];
        [done|]. simpl in Hem. lia. }
    assert (convertNode rawNode ∈ fromContract) as Hin'
      by (by apply list_elem_of_fmap_2).
    destruct (nodes s !! NodeId rawNode) as [old|] eqn:Hold.
    + f_equal. symmetry.
      by apply (changed_in_nil_agrees fromContract (nodes s) Hchg).
    + exfalso. eapply (filter_nil_not_elem_of _ _ _ Hnew); [|exact Hin'].
      exact Hold.
  - intros Hall. unfold refreshData, loadFromContract.
    rewrite refreshData_loop_settled; [done|].
    intros node (raw & -> & Hin)%list_elem_of_fmap. by apply Hall.
Qed.

Lemma refresh_is_silent_iff_roster_agrees_witness :
  @refreshData sampleCrypto (inl [n1Raw]) (started [n1Raw; n2Raw])
  = (started [n1Raw; n2Raw], None).
Proof.
  apply (proj2 (@refresh_is_silent_iff_roster_agrees sampleCrypto
                  (started [n1Raw; n2Raw]) [n1Raw])).
  intros rawNode Hin. apply list_elem_of_singleton in Hin as ->.
  vm_compute; reflexivity.
Defined.

Lemma storeNodes_Permutation l l' (m : gmap N Node) :
  l ≡ₚ l' → NoDup (NodeID <$> l) → storeNodes m l = storeNodes m l'.
Proof.
  intros Hperm Hnd.
  assert (Hnd' : NoDup (NodeID <$> l')) by (by rewrite <- Hperm).
  apply map_eq. intros i.
  destruct (decide (i ∈ NodeID <$> l)) as [Hi|Hi].
  - apply list_elem_of_fmap in Hi as (node & -> & Hin).
    rewrite (storeNodes_lookup_NoDup l m node Hnd Hin).
    rewrite (storeNodes_lookup_NoDup l' m node Hnd'); [done|].
    by rewrite <- Hperm.
  - rewrite (storeNodes_lookup_other l m i Hi).
    rewrite (storeNodes_lookup_other l' m i); [done|]. by rewrite <- Hperm.
Qed.

(** X10: when the ids of the snapshot are pairwise distinct, the order in
    which the contract lists the nodes does not matter: the roster after the
    refresh is the same, the new batch holds the same nodes, and the same
    changed nodes are notified. *)
Theorem refresh_ignores_snapshot_order `{CryptoLib}
    (s : SmartContractRegistry) (raws raws' : list NodesNodeWithId) :
  raws ≡ₚ raws' → NoDup (NodeId <$> raws) →
  let s1 := (refreshData (inl raws) s).1 in
  let s2 := (refreshData (inl raws') s).1 in
  nodes s1 = nodes s2
  ∧ filter (is_new (nodes s)) (convertNode <$> raws)
    ≡ₚ filter (is_new (nodes s)) (convertNode <$> raws')
  ∧ ∀ node, ChangedNodeEv node ∈ emitted s1 ↔ ChangedNodeEv node ∈ emitted s2.
Proof.
  intros Hperm Hnd s1 s2. subst s1 s2.
  assert (Hfc : convertNode <$> raws ≡ₚ convertNode <$> raws')
    by (by rewrite Hperm).
  assert (Hndfc : NoDup (NodeID <$> (convertNode <$> raws)))
    by (by rewrite <- list_fmap_compose).
  assert (Hndfc' : NoDup (NodeID <$> (convertNode <$> raws')))
    by (by rewrite <- Hfc).
  rewrite !refreshData_ok. cbn [fst nodes emitted].
  split; [by apply storeNodes_Permutation|]. split; [by rewrite Hfc|].
  rewrite !changed_in_NoDup by done.
  assert (Hnone : ∀ node l, ChangedNodeEv node ∈ new_event l ↔ False).
  { intros node [|a l]; simpl; [by rewrite elem_of_nil|].
    rewrite list_elem_of_singleton. done. }
  intros node. rewrite !elem_of_app, !Hnone.
  assert (∀ l : list Node,
            ChangedNodeEv node ∈ ChangedNodeEv <$> l ↔ node ∈ l) as Hc.
  { intros l. rewrite list_elem_of_fmap. split.
    - by intros (n & [= ->] & ?).
    - intros ?. by exists node. }
  rewrite !Hc, !list_elem_of_filter. by rewrite Hfc.
Qed.

Lemma refresh_ignores_snapshot_order_witness :
  nodes (@refreshData sampleCrypto (inl [n1RawUnhealthy; n2Raw]) subscribedS4).1
  = nodes (@refreshData sampleCrypto (inl [n2Raw; n1RawUnhealthy]) subscribedS4).1.
Proof.
  apply (@refresh_ignores_snapshot_order sampleCrypto subscribedS4
           [n1RawUnhealthy; n2Raw] [n2Raw; n1RawUnhealthy]).
  - apply perm_swap.
  - apply (bool_decide_unpack _). vm_compute. exact I.
Defined.

Lemma GetNodes_returns_entries (s : SmartContractRegistry) sl err :
  GetNodes s = Returned (sl, err) →
  map_to_list (nodes s) ≡ₚ imap (λ j nd, (N.of_nat j, nd)) sl.
Proof.
  intros Hret. apply GetNodes_returns_lookup in Hret as [Hlen Hlk].
  apply submseteq_length_Permutation.
  - apply NoDup_submseteq; [apply NoDup_map_to_list|].
    intros [idx nd] Hin%elem_of_map_to_list.
    rewrite <- (N2Nat.id idx).
    apply (elem_of_lookup_imap_2 (λ j nd, (N.of_nat j, nd))).
    by apply Hlk.
  - rewrite length_imap, length_map_to_list. lia.
Qed.

Lemma GetNodes_by_index (s : SmartContractRegistry) :
  ((∃ sl, GetNodes s = Returned (sl, None))
   ↔ ∀ i, is_Some (nodes s !! i) ↔ (i < N.of_nat (size (nodes s)))%N)
  ∧ (∀ sl err, GetNodes s = Returned (sl, err) →
       ∀ j, sl !! j = nodes s !! N.of_nat j).
Proof.
  assert (Hidx : ∀ sl err, GetNodes s = Returned (sl, err) →
            ∀ j, sl !! j = nodes s !! N.of_nat j).
  { intros sl err Hret j.
    pose proof (GetNodes_returns_entries s sl err Hret) as Hperm.
    apply GetNodes_returns_lookup in Hret as [Hlen Hlk].
    destruct (sl !! j) as [nd|] eqn:Hj.
    - symmetry. apply elem_of_map_to_list. rewrite Hperm.
      by apply (elem_of_lookup_imap_2 (λ j nd, (N.of_nat j, nd))).
    - destruct (nodes s !! N.of_nat j) as [nd|] eqn:Hn; [|done].
      apply Hlk in Hn. rewrite Nat2N.id in Hn. congruence. }
  split; [|exact Hidx]. split.
  - intros [sl Hret] i.
    pose proof (Hidx sl None Hret (N.to_nat i)) as Hi.
    rewrite N2Nat.id in Hi. rewrite <- Hi.
    apply GetNodes_returns_lookup in Hret as [Hlen _].
    rewrite lookup_lt_is_Some, Hlen. lia.
  - intros Hdense. unfold GetNodes.
    destruct (GetNodes_loop _ _) as [sl|] eqn:Hloop; [by eauto|].
    exfalso.
    assert (∃ msg, GetNodes s = Panicked msg) as Hp.
    { unfold GetNodes. rewrite Hloop. eauto. }
    apply GetNodes_panics_iff in Hp as (idx & Hin%elem_of_dom & Hle).
    apply Hdense in Hin. lia.
Qed.

(** X11: [GetNodes] returns (does not panic) exactly when the ids of the
    roster are [0 .. n-1], [n] being the number of nodes; the slice it returns
    then holds at each index the node of that id. *)
Theorem GetNodes_returns_iff_ids_dense (s : SmartContractRegistry) :
  ((∃ sl, GetNodes s = Returned (sl, None))
   ↔ ∀ i, is_Some (nodes s !! i) ↔ (i < N.of_nat (size (nodes s)))%N)
  ∧ (∀ sl err, GetNodes s = Returned (sl, err) →
       ∀ j, sl !! j = nodes s !! N.of_nat j).
Proof. exact (GetNodes_by_index s). Qed.

Lemma GetNodes_returns_iff_ids_dense_witness :
  ∃ sl, GetNodes (started [n1Raw; n0Raw]) = Returned (sl, None).
Proof.
  apply (proj1 (GetNodes_returns_iff_ids_dense (started [n1Raw; n0Raw]))).
  intros i.
  change (size (nodes (started [n1Raw; n0Raw]))) with 2.
  split.
  - intros [nd Hnd].
    destruct (decide (i < 2)%N) as [|Hge]; [done|exfalso].
    assert (nodes (started [n1Raw; n0Raw]) !! i = None) as Hnone; [|congruence].
    change (nodes (started [n1Raw; n0Raw]))
      with (<[0%N := convert n0Raw]> (<[1%N := convert n1Raw]> (∅ : gmap N Node))).
    rewrite !lookup_insert_ne by lia. apply lookup_empty.
  - intros Hlt.
    assert (i = 0 ∨ i = 1)%N as [-> | ->] by lia; vm_compute; eauto.
Defined.

Lemma storeNodes_size l : ∀ (m : gmap N Node),
  NoDup (NodeID <$> l) → (∀ node, node ∈ l → m !! NodeID node = None) →
  size (storeNodes m l) = size m + length l.
Proof.
  induction l as [|h l IH]; intros m Hnd Hnew; [simpl; lia|].
  rewrite storeNodes_cons. rewrite fmap_cons in Hnd.
  apply NoDup_cons in Hnd as [Hfresh Hnd].
  rewrite IH; [|done|].
  - rewrite map_size_insert_None by (apply Hnew; by left). simpl. lia.
  - intros node Hin. rewrite lookup_insert_ne; [apply Hnew; by right|].
    intros Heq. apply Hfresh. rewrite Heq. by apply list_elem_of_fmap_2.
Qed.

Lemma dense_ids_lookup n j i :
  dense_ids n !! j = Some i → i = N.of_nat j ∧ j < n.
Proof.
  unfold dense_ids. intros (k & -> & Hk)%list_lookup_fmap_Some.
  apply lookup_seq in Hk as [-> ?]. done.
Qed.

Lemma dense_ids_NoDup n : NoDup (dense_ids n).
Proof.
  unfold dense_ids. apply NoDup_fmap_2; [|apply NoDup_seq].
  intros a b. apply Nat2N.inj.
Qed.

(** X12: when the contract lists its nodes with the ids [0, 1, .., n-1] in
    this order, [GetNodes] after [Start] returns the converted nodes in the
    same order. *)
Theorem GetNodes_after_Start_with_dense_ids `{CryptoLib} (c : Ctx)
    (raws : list NodesNodeWithId) :
  NodeId <$> raws = dense_ids (length raws) →
  GetNodes (Start c (inl raws) emptyRegistry).1
  = Returned (convertNode <$> raws, None).
Proof.
  intros Hids. set (s1 := (Start c (inl raws) emptyRegistry).1).
  set (fromContract := convertNode <$> raws).
  assert (Hn : nodes s1 = storeNodes ∅ fromContract).
  { unfold s1, Start. by rewrite refreshData_ok. }
  assert (Hfc : NodeID <$> fromContract = dense_ids (length raws)).
  { unfold fromContract. by rewrite <- list_fmap_compose. }
  assert (Hnd : NoDup (NodeID <$> fromContract)).
  { rewrite Hfc. apply dense_ids_NoDup. }
  assert (Hsize : size (nodes s1) = length raws).
  { rewrite Hn, storeNodes_size; [|done|by intros; apply lookup_empty].
    rewrite map_size_empty. unfold fromContract. by rewrite length_fmap. }
  assert (Hat : ∀ j node, fromContract !! j = Some node →
                          nodes s1 !! N.of_nat j = Some node).
  { intros j node Hj.
    assert (NodeID node = N.of_nat j) as <-.
    { assert ((NodeID <$> fromContract) !! j = Some (NodeID node)) as Hid
        by (by rewrite list_lookup_fmap, Hj).
      rewrite Hfc in Hid. by apply dense_ids_lookup in Hid as [? _]. }
    rewrite Hn. apply storeNodes_lookup_NoDup; [done|].
    by eapply list_elem_of_lookup_2. }
  destruct (proj2 (proj1 (GetNodes_by_index s1))) as [sl Hret].
  { intros i. rewrite Hsize. split.
    - intros [node Hnode]. rewrite Hn in Hnode.
      apply storeNodes_lookup_Some in Hnode as [Hnode|[Hin <-]];
        [by rewrite lookup_empty in Hnode|].
      assert (NodeID node ∈ dense_ids (length raws)) as Hd.
      { rewrite <- Hfc. by apply list_elem_of_fmap_2. }
      apply list_elem_of_lookup_1 in Hd as [j Hj].
      apply dense_ids_lookup in Hj as [-> ?]. lia.
    - intros Hlt.
      destruct (lookup_lt_is_Some_2 fromContract (N.to_nat i)) as [node Hj].
      { unfold fromContract. rewrite length_fmap. lia. }
      apply Hat in Hj. rewrite N2Nat.id in Hj. eauto. }
  rewrite Hret. do 2 f_equal. apply list_eq. intros j.
  rewrite (proj2 (GetNodes_by_index s1) sl None Hret j).
  destruct (fromContract !! j) as [node|] eqn:Hj; [by apply Hat|].
  apply lookup_ge_None in Hj. unfold fromContract in Hj.
  rewrite length_fmap in Hj.
  destruct (nodes s1 !! N.of_nat j) as [node|] eqn:Hnode; [|done].
  exfalso. rewrite Hn in Hnode.
  apply storeNodes_lookup_Some in Hnode as [Hnode|[Hin Hid]];
    [by rewrite lookup_empty in Hnode|].
  assert (N.of_nat j ∈ dense_ids (length raws)) as Hd.
  { rewrite <- Hfc, <- Hid. by apply list_elem_of_fmap_2. }
  apply list_elem_of_lookup_1 in Hd as [k Hk].
  apply dense_ids_lookup in Hk as [Hk ?]. apply Nat2N.inj in Hk. lia.
Qed.

Lemma GetNodes_after_Start_with_dense_ids_witness :
  GetNodes (@Start sampleCrypto 0 (inl [n0Raw; n1Raw; n2RawInvalid])
              emptyRegistry).1
  = Returned (convert <$> [n0Raw; n1Raw; n2RawInvalid], None).
Proof.
  apply (@GetNodes_after_Start_with_dense_ids sampleCrypto 0
           [n0Raw; n1Raw; n2RawInvalid]).
  reflexivity.
Defined.

(** X21: when the snapshot of a tick, with pairwise distinct ids, brings for
    an id of the roster a node that differs from the stored one, the roster
    takes the new node; if [OnChangedNode] has been called for the id before
    the tick, the notifier of the id is triggered with the new node during
    the tick, and if the id has no notifier the tick triggers no changed-node
    notification for it. What a consumer then receives from the notifier is
    not part of the statement. *)
Theorem change_reaches_roster_and_notifier `{CryptoLib}
    (s : SmartContractRegistry) (raws : list NodesNodeWithId)
    (rawNode : NodesNodeWithId) (old : Node) :
  NoDup (NodeId <$> raws) → rawNode ∈ raws →
  nodes s !! NodeId rawNode = Some old → convertNode rawNode ≠ old →
  let subscribed := onTick (inl raws) (OnChangedNode (NodeId rawNode) s) in
  let unnoticed := onTick (inl raws) s in
  nodes subscribed !! NodeId rawNode = Some (convertNode rawNode)
  ∧ nodes unnoticed !! NodeId rawNode = Some (convertNode rawNode)
  ∧ ChangedNodeEv (convertNode rawNode)
      ∈ drop (length (emitted s)) (emitted subscribed)
  ∧ (NodeId rawNode ∉ changedNodeNotifiers s →
     ∀ node, ChangedNodeEv node ∈ drop (length (emitted s)) (emitted unnoticed) →
             NodeID node ≠ NodeId rawNode).
Proof.
  intros Hnd Hin Hold Hne subscribed unnoticed. subst subscribed unnoticed.
  set (fromContract := convertNode <$> raws).
  assert (Hndfc : NoDup (NodeID <$> fromContract)).
  { unfold fromContract. by rewrite <- list_fmap_compose. }
  assert (Hinfc : convertNode rawNode ∈ fromContract)
    by (by apply list_elem_of_fmap_2).
  assert (Hs : nodes (OnChangedNode (NodeId rawNode) s) = nodes s
               ∧ emitted (OnChangedNode (NodeId rawNode) s) = emitted s
               ∧ NodeId rawNode
                 ∈ changedNodeNotifiers (OnChangedNode (NodeId rawNode) s)).
  { unfold OnChangedNode. case_decide; simpl; [done|].
    split; [done|]. split; [done|]. apply elem_of_union. left.
    by apply elem_of_singleton. }
  destruct Hs as (Hn & He & Hsub).
  unfold onTick. rewrite !refreshData_ok. cbn [nodes emitted].
  rewrite Hn, He. fold fromContract.
  rewrite !drop_app_length. rewrite !changed_in_NoDup by done.
  split; [|split; [|split]].
  - by apply (storeNodes_lookup_NoDup fromContract (nodes s) (convertNode rawNode)).
  - by apply (storeNodes_lookup_NoDup fromContract (nodes s) (convertNode rawNode)).
  - apply elem_of_app. left. apply list_elem_of_fmap_2.
    apply list_elem_of_filter. split; [exact Hsub|].
    apply list_elem_of_filter. split; [|done].
    exists old. split; [done|]. by apply Equals_false_ne.
  - intros Hnot node [Hc|Hc]%elem_of_app.
    + apply list_elem_of_fmap in Hc as (n & [= <-] & Hc).
      apply list_elem_of_filter in Hc as [Hc _]. intros Heq.
      apply Hnot. by rewrite <- Heq.
    + unfold new_event in Hc.
      destruct (filter (is_new (nodes s)) fromContract);
        [by apply elem_of_nil in Hc|].
      by apply list_elem_of_singleton in Hc.
Qed.

Lemma change_reaches_roster_and_notifier_witness :
  ChangedNodeEv (convert n1RawUnhealthy)
  ∈ drop (length (emitted (started [n1Raw])))
      (emitted (@onTick sampleCrypto (inl [n1RawUnhealthy; n2Raw])
                  (OnChangedNode (NodeId n1RawUnhealthy) (started [n1Raw])))).
Proof.
  apply (@change_reaches_roster_and_notifier sampleCrypto (started [n1Raw])
           [n1RawUnhealthy; n2Raw] n1RawUnhealthy (convert n1Raw)).
  - apply (bool_decide_unpack _). vm_compute. exact I.
  - left.
  - vm_compute; reflexivity.
  - vm_compute. discriminate.
Defined.

End RegistryFacts.

Module CrdtFacts.
Import Crdt Samples.

Section FetchFacts.
Context `{NodeStore Node}.

Lemma Fetch_loop_ok n t cids : ∀ acc results,
  Fetch_loop n t cids acc = (results, None) →
  ∃ evs, results = acc ++ evs
         ∧ Forall2 (λ cid ev, Get n t cid = inl ev) cids evs.
Proof.
  induction cids as [|cid rest IH]; intros acc results; simpl.
  - intros [= <-]. exists []. by rewrite app_nil_r.
  - destruct (Get n t cid) as [ev|err] eqn:Hget; [|done].
    intros (evs & -> & Hall)%IH. exists (ev :: evs).
    split; [by rewrite <- app_assoc|by constructor].
Qed.

Lemma Fetch_loop_err n t cids : ∀ acc results err,
  Fetch_loop n t cids acc = (results, Some err) →
  results = [] ∧ ∃ cid, cid ∈ cids ∧ Get n t cid = inr err.
Proof.
  induction cids as [|cid rest IH]; intros acc results err; simpl; [done|].
  destruct (Get n t cid) as [ev|err'] eqn:Hget.
  - intros (-> & cid' & Hin & Hcid')%IH. split; [done|].
    exists cid'. split; [by right|done].
  - intros [= <- <-]. split; [done|]. exists cid. split; [by left|done].
Qed.

Lemma Fetch_loop_fails n t cids : ∀ acc cid err,
  cid ∈ cids → Get n t cid = inr err →
  ∃ err', Fetch_loop n t cids acc = ([], Some err').
Proof.
  induction cids as [|c rest IH]; intros acc cid err Hin Hget.
  - by apply elem_of_nil in Hin.
  - simpl. destruct (Get n t c) as [ev|err'] eqn:Hc; [|by eauto].
    apply elem_of_cons in Hin as [->|Hin]; [congruence|].
    by eapply IH.
Qed.

Lemma GetRandomNode_returns (s : randomSyncer Node) draw :
  syncerNodes s ≠ [] →
  ∃ n, GetRandomNode s draw = Returned n ∧ n ∈ syncerNodes s.
Proof.
  intros Hne. unfold GetRandomNode, Intn.
  destruct (syncerNodes s) as [|n0 ns] eqn:Hs; [done|].
  rewrite decide_False by done.
  assert (draw mod length (n0 :: ns) < length (n0 :: ns)) as Hlt.
  { apply Nat.mod_upper_bound. done. }
  apply lookup_lt_is_Some_2 in Hlt as [n Hn]. rewrite Hn.
  exists n. split; [done|]. by eapply list_elem_of_lookup_2.
Qed.

End FetchFacts.

(** ** Picking a replica and fetching from it *)

Section SyncerFacts.
Context `{NodeStore Node}.

Lemma GetRandomNode_member (s : randomSyncer Node) draw n :
  GetRandomNode s draw = Returned n → n ∈ syncerNodes s.
Proof.
  unfold GetRandomNode, Intn. case_decide; [done|].
  destruct (syncerNodes s !! _) as [n'|] eqn:Hlk; [|done].
  intros [= <-]. by eapply list_elem_of_lookup_2.
Qed.

(** The loop with results already gathered, in terms of the loop from
    scratch. *)
Lemma Fetch_loop_acc n t cids : ∀ acc,
  Fetch_loop n t cids acc =
  match Fetch_loop n t cids [] with
  | (results, None) => (acc ++ results, None)
  | (_, Some err) => ([], Some err)
  end.
Proof.
  induction cids as [|cid rest IH]; intros acc; simpl.
  - by rewrite app_nil_r.
  - destruct (Get n t cid) as [ev|err]; [|done].
    rewrite (IH (acc ++ [ev])), (IH [ev]).
    destruct (Fetch_loop n t rest []) as [results [err|]]; [done|].
    by rewrite <- app_assoc.
Qed.

Lemma Fetch_loop_app n t cids1 cids2 :
  Fetch_loop n t (cids1 ++ cids2) [] =
  match Fetch_loop n t cids1 [] with
  | (results1, None) =>
      match Fetch_loop n t cids2 [] with
      | (results2, None) => (results1 ++ results2, None)
      | (_, Some err) => ([], Some err)
      end
  | (_, Some err) => ([], Some err)
  end.
Proof.
  induction cids1 as [|cid rest IH]; simpl.
  - destruct (Fetch_loop n t cids2 []) as [results [err|]] eqn:Hloop; [|done].
    by apply Fetch_loop_err in Hloop as [-> _].
  - destruct (Get n t cid) as [ev|err]; [|done].
    rewrite (Fetch_loop_acc n t (rest ++ cids2)), (Fetch_loop_acc n t rest), IH.
    destruct (Fetch_loop n t rest []) as [r1 [e1|]]; [done|].
    destruct (Fetch_loop n t cids2 []) as [r2 [e2|]]; [done|].
    by rewrite <- app_assoc.
Qed.

Lemma Fetch_loop_all_found n t cids :
  (∀ cid, cid ∈ cids → found (Get n t cid)) →
  ∃ results, Fetch_loop n t cids [] = (results, None).
Proof.
  induction cids as [|cid rest IH]; intros Hall; [by eexists|].
  simpl. pose proof (Hall cid (list_elem_of_here _ _)) as Hc.
  destruct (Get n t cid) as [ev|err]; [|done].
  destruct IH as [results Hr]; [intros c Hc'; apply Hall; by right|].
  rewrite Fetch_loop_acc, Hr. eauto.
Qed.

End SyncerFacts.

(** X13: [GetRandomNode] can return exactly the nodes that have been added
    to the syncer; it panics exactly when none has been added, so never after
    an [AddNode]. *)
Theorem GetRandomNode_picks_added_nodes {Node} (s : randomSyncer Node) :
  (∀ n, (∃ draw, GetRandomNode s draw = Returned n) ↔ n ∈ syncerNodes s)
  ∧ (∀ draw, (∃ msg, GetRandomNode s draw = Panicked msg)
             ↔ syncerNodes s = [])
  ∧ (∀ n draw, ∃ n', GetRandomNode (AddNode n s) draw = Returned n').
Proof.
  split; [|split].
  - intros n. split.
    + intros [draw Hd]. unfold GetRandomNode, Intn in Hd.
      case_decide; [done|].
      destruct (syncerNodes s !! _) as [n'|] eqn:Hlk; [|done].
      injection Hd as <-. by eapply list_elem_of_lookup_2.
    + intros [i Hi]%list_elem_of_lookup_1. exists i.
      unfold GetRandomNode, Intn.
      pose proof (lookup_lt_Some _ _ _ Hi) as Hlt.
      rewrite decide_False by lia.
      by rewrite Nat.mod_small, Hi.
  - intros draw. split.
    + intros [msg Hp].
      destruct (syncerNodes s) as [|n0 ns] eqn:Hs; [done|exfalso].
      destruct (GetRandomNode_returns s draw) as (n & Hn & _); [by rewrite Hs|].
      congruence.
    + intros Hs. unfold GetRandomNode, Intn. rewrite Hs. simpl. eauto.
  - intros n draw.
    destruct (GetRandomNode_returns (AddNode n s) draw) as (n' & Hn & _).
    + simpl. by destruct (syncerNodes s).
    + eauto.
Qed.

Lemma GetRandomNode_picks_added_nodes_witness :
  ∃ draw,
    GetRandomNode (AddNode [ev1; ev2] (AddNode [ev1] newRandomSyncer)) draw
    = Returned [ev1; ev2].
Proof.
  apply (proj1 (GetRandomNode_picks_added_nodes
                  (AddNode [ev1; ev2] (AddNode [ev1] newRandomSyncer)))).
  right. left.
Defined.

(** X14: with the replica the syncer has picked, [Fetch] succeeds exactly when
    the replica has every requested cid, and its results are then the events
    [Get] returns for the cids, one per cid and in the order of the
    request. *)
Theorem Fetch_succeeds_iff_all_found `{NodeStore Node}
    (s : randomTopicSyncer Node) (draw : nat) (cids : list Multihash)
    (n : Node) :
  GetRandomNode (syncer s) draw = Returned n →
  ((∃ results, Fetch s draw cids = Returned (results, None))
   ↔ ∀ cid, cid ∈ cids → found (Get n (topic s) cid))
  ∧ (∀ results, Fetch s draw cids = Returned (results, None) →
       Forall2 (λ cid ev, Get n (topic s) cid = inl ev) cids results).
Proof.
  intros Hn. unfold Fetch. rewrite Hn.
  assert (Hok : ∀ results, Returned (Fetch_loop n (topic s) cids [])
                           = Returned (results, None) →
            Forall2 (λ cid ev, Get n (topic s) cid = inl ev) cids results).
  { intros results [= Hloop].
    by apply Fetch_loop_ok in Hloop as (evs & -> & Hall). }
  split; [|exact Hok]. split.
  - intros [results Hr%Hok] cid Hin.
    apply list_elem_of_lookup_1 in Hin as [i Hi].
    destruct (Forall2_lookup_l _ _ _ _ _ Hr Hi) as (ev & _ & ->). done.
  - intros Hall.
    destruct (Fetch_loop_all_found n (topic s) cids Hall) as [results ->].
    eauto.
Qed.

Lemma Fetch_succeeds_iff_all_found_witness :
  ∃ results, @Fetch sampleNode sampleStore builtSyncer 1 [[x01]; [x02]; [x01]]
             = Returned (results, None).
Proof.
  apply (proj1 (@Fetch_succeeds_iff_all_found sampleNode sampleStore
                  builtSyncer 1 [[x01]; [x02]; [x01]] [ev1; ev2]
                  eq_refl)).
  intros cid Hin.
  apply elem_of_cons in Hin as [->|Hin]; [exact I|].
  apply elem_of_cons in Hin as [->|Hin]; [exact I|].
  apply list_elem_of_singleton in Hin as ->. exact I.
Defined.

(** X15: [Fetch] returns the error of the first cid, in the order of the
    request, that the replica does not have, and no event. *)
Theorem Fetch_returns_first_error `{NodeStore Node}
    (s : randomTopicSyncer Node) (draw : nat) (n : Node)
    (before after : list Multihash) (cid : Multihash) (err : error) :
  GetRandomNode (syncer s) draw = Returned n →
  (∀ c, c ∈ before → found (Get n (topic s) c)) →
  Get n (topic s) cid = inr err →
  Fetch s draw (before ++ cid :: after) = Returned ([], Some err).
Proof.
  intros Hn Hbefore Hcid. unfold Fetch. rewrite Hn. f_equal.
  rewrite Fetch_loop_app.
  destruct (Fetch_loop_all_found n (topic s) before Hbefore) as [r1 ->].
  simpl. by rewrite Hcid.
Qed.

Lemma Fetch_returns_first_error_witness :
  @Fetch sampleNode sampleStore sampleSyncer 0 ([[x01]] ++ [x02] :: [[x03]])
  = Returned ([], Some "not found").
Proof.
  apply (@Fetch_returns_first_error sampleNode sampleStore sampleSyncer 0
           [ev1] [[x01]] [[x03]] [x02] "not found").
  - reflexivity.
  - intros c Hc. apply list_elem_of_singleton in Hc as ->. exact I.
  - reflexivity.
Defined.

(** X16: fetching a concatenated request with the same replica amounts to
    fetching its two parts: the results are concatenated when both succeed,
    and the first error wins otherwise. *)
Theorem Fetch_of_concatenated_requests `{NodeStore Node}
    (s : randomTopicSyncer Node) (draw : nat)
    (cids1 cids2 : list Multihash) :
  Fetch s draw (cids1 ++ cids2) =
  match Fetch s draw cids1, Fetch s draw cids2 with
  | Returned (results1, None), Returned (results2, None) =>
      Returned (results1 ++ results2, None)
  | Returned (_, Some err), _ => Returned ([], Some err)
  | Returned (_, None), Returned (_, Some err) => Returned ([], Some err)
  | Panicked msg, _ => Panicked msg
  | _, Panicked msg => Panicked msg
  end.
Proof.
  unfold Fetch. destruct (GetRandomNode (syncer s) draw) as [n|msg]; [|done].
  rewrite Fetch_loop_app.
  destruct (Fetch_loop n (topic s) cids1 []) as [r1 [e1|]]; [done|].
  by destruct (Fetch_loop n (topic s) cids2 []) as [r2 [e2|]].
Qed.

(** ** Fetching from the replicas of the specification *)

Lemma Insert_honest `{ContentAddress} ev n n' :
  honest n → Insert ev n = inl n' → honest n'.
Proof.
  intros Hn. unfold Insert.
  destruct (sane ev) eqn:Hsane; [|done].
  destruct (n (EventTopic ev) !! Cid ev) as [known|] eqn:Hknown.
  - by intros [= <-].
  - intros [= <-] t cid ev'.
    destruct (String.eqb_spec t (EventTopic ev)) as [->|Hne]; [|apply Hn].
    destruct (decide (Cid ev = cid)) as [<-|Hcid].
    + rewrite lookup_insert_eq. by intros [= <-].
    + rewrite lookup_insert_ne by done. apply Hn.
Qed.

Lemma replicaOf_honest `{ContentAddress} received : honest (replicaOf received).
Proof.
  unfold replicaOf.
  assert (Hgen : ∀ n, honest n →
            honest (foldl (λ n ev, match Insert ev n with
                                   | inl n' => n' | inr _ => n end)
                          n received)).
  { induction received as [|ev rest IH]; intros n Hn; [done|].
    simpl. apply IH.
    destruct (Insert ev n) as [n'|err] eqn:Hins; [|done].
    by eapply Insert_honest. }
  apply Hgen. intros t cid ev Hlk. unfold emptyReplica in Hlk.
  by rewrite lookup_empty in Hlk.
Qed.

(** C7: with replicas as the specification describes them (each holds, under
    its content id, the sane events it has been handed, and [Get] looks the
    content id up), [Fetch] returns either one event per requested cid, in
    order, each carrying the requested cid, which is the content id of its
    content, or an error and no event at all; a single cid the picked replica
    does not have fails the whole request; and [Fetch] does return whenever
    the network has a replica. [Fetch] itself compares no content id: the
    match is the store's. *)
Theorem Fetch_returns_requested_cids_or_fails `{ContentAddress}
    (network : list (list Event)) (owner : Replica) (t : string)
    (draw : nat) (cids : list Multihash) :
  let s := syncerOf network owner t in
  (∀ results err,
     @Fetch Replica specGet s draw cids = Returned (results, err) →
     (err = None ∧ Cid <$> results = cids
      ∧ Forall (λ ev, Cid ev = contentID (EventTopic ev) (Links ev) (Payload ev))
               results)
     ∨ (∃ e, err = Some e ∧ results = []))
  ∧ (∀ n cid e,
       GetRandomNode (syncer s) draw = Returned n → cid ∈ cids →
       @Get Replica specGet n t cid = inr e →
       ∃ e', @Fetch Replica specGet s draw cids = Returned ([], Some e'))
  ∧ (network ≠ [] →
     ∃ r, @Fetch Replica specGet s draw cids = Returned r).
Proof.
  intros s. subst s. unfold Fetch. cbn [syncer topic syncerOf].
  split; [|split].
  - intros results err.
    destruct (GetRandomNode _ draw) as [n|msg] eqn:Hn; [|done].
    assert (honest n) as Hhonest.
    { apply GetRandomNode_member in Hn. simpl in Hn.
      apply list_elem_of_fmap in Hn as (received & -> & _).
      apply replicaOf_honest. }
    intros [= Hloop]. destruct err as [e|].
    + right. apply (@Fetch_loop_err Replica specGet) in Hloop as [-> _]. eauto.
    + left. split; [done|].
      apply (@Fetch_loop_ok Replica specGet) in Hloop as (evs & -> & Hall).
      simpl.
      assert (∀ cid ev, @Get Replica specGet n t cid = inl ev →
                Cid ev = cid ∧ sane ev = true) as Hget.
      { intros cid ev. unfold Get, specGet.
        destruct (n t !! cid) as [ev'|] eqn:Hlk; [|done].
        intros [= <-]. by apply Hhonest in Hlk as (? & _ & ?). }
      induction Hall as [|cid ev cids' evs' Hcid _ IH]; [done|].
      apply Hget in Hcid as [Hcid Hsane].
      split.
      * rewrite fmap_cons. f_equal; [done|apply IH].
      * constructor; [|apply IH]. unfold sane in Hsane.
        apply andb_true_iff in Hsane as [_ Hsane].
        by apply bool_decide_eq_true in Hsane.
  - intros n cid e -> Hin Hcid.
    destruct (@Fetch_loop_fails Replica specGet n t cids [] cid e Hin Hcid)
      as [e' ->].
    eauto.
  - intros Hne.
    destruct (GetRandomNode_returns
                {| syncerNodes := replicaOf <$> network |} draw)
      as (n & -> & _); [|by eauto].
    simpl. by destruct network.
Qed.

Lemma Fetch_returns_requested_cids_or_fails_witness :
  @Fetch Replica specGet
    (@syncerOf sampleHash sampleNetwork emptyReplica "t0") 0
    [[x62]; [x68; x69]]
  = Returned ([hiBack; hi], None)
  ∧ ((None : option error) = None
     ∧ Cid <$> [hiBack; hi] = [[x62]; [x68; x69]]
     ∧ Forall (λ ev, Cid ev = @contentID sampleHash (EventTopic ev) (Links ev)
                                (Payload ev)) [hiBack; hi]
     ∨ ∃ e, (None : option error) = Some e ∧ [hiBack; hi] = []).
Proof.
  split; [vm_compute; reflexivity|].
  apply (proj1 (@Fetch_returns_requested_cids_or_fails sampleHash
                  sampleNetwork emptyReplica "t0" 0 [[x62]; [x68; x69]])
           [hiBack; hi] None).
  vm_compute; reflexivity.
Defined.

End CrdtFacts.

Module ApiTestingFacts.
Import ApiTesting Samples.

Lemma wrap_int_small z : (- 2 ^ 63 ≤ z < 2 ^ 63)%Z → wrap_int z = z.
Proof. intros Hz. unfold wrap_int. rewrite Z.mod_small; lia. Qed.

(** On timestamps below [2^63] the comparator is the order of the
    specification. *)
Lemma less_small_timestamps (ei ej : Envelope) :
  (0 ≤ TimestampNs ei < 2 ^ 63)%Z → (0 ≤ TimestampNs ej < 2 ^ 63)%Z →
  less ei ej = true ↔ spec_before ei ej.
Proof.
  intros Hi Hj. unfold less, spec_before, int_sub, int_of_uint64.
  rewrite (wrap_int_small (TimestampNs ei)) by lia.
  rewrite (wrap_int_small (TimestampNs ej)) by lia.
  rewrite wrap_int_small by lia.
  destruct (Z.eqb_spec (TimestampNs ei - TimestampNs ej) 0) as [Hd|Hd]; simpl.
  - rewrite Z.ltb_lt. split; [right; split; [lia|done]|].
    intros [?|[_ ?]]; [lia|done].
  - rewrite Z.ltb_lt. split; [left; lia|]. intros [?|[? _]]; lia.
Qed.

(** C8 (fails on the code): the comparator subtracts the timestamps after
    converting them to [int], and the difference wraps around. With the
    timestamps 0 and [2^63 + 1] the later envelope sorts before the earlier
    one; with 0 and [2^63] each of the two sorts before the other. *)
Theorem less_breaks_on_far_apart_timestamps :
  uint64_ok (envelope 0) ∧ uint64_ok (envelope (2 ^ 63 + 1))
  ∧ uint64_ok (envelope (2 ^ 63))
  ∧ spec_before (envelope 0) (envelope (2 ^ 63 + 1))
  ∧ less (envelope 0) (envelope (2 ^ 63 + 1)) = false
  ∧ less (envelope (2 ^ 63 + 1)) (envelope 0) = true
  ∧ less (envelope 0) (envelope (2 ^ 63)) = true
  ∧ less (envelope (2 ^ 63)) (envelope 0) = true.
Proof.
  unfold uint64_ok, spec_before. simpl.
  repeat split; try lia; try (vm_compute; reflexivity); try (left; lia).
Qed.

(** ** bytes.Compare *)

Lemma bytes_Compare_range a : ∀ b,
  (bytes_Compare a b = -1 ∨ bytes_Compare a b = 0 ∨ bytes_Compare a b = 1)%Z.
Proof.
  induction a as [|x a IH]; intros [|y b]; simpl; auto.
  destruct (N.compare _ _); auto.
Qed.

Lemma bytes_Compare_eq a : ∀ b, bytes_Compare a b = 0%Z ↔ a = b.
Proof.
  induction a as [|x a IH]; intros [|y b]; simpl; try done.
  destruct (N.compare_spec (Byte.to_N x) (Byte.to_N y)) as [Heq|Hlt|Hgt].
  - apply (f_equal Byte.of_N) in Heq. rewrite !Byte.of_to_N in Heq.
    injection Heq as ->. rewrite IH. split; [by intros ->|by intros [= ->]].
  - split; [done|]. intros [= -> _]. lia.
  - split; [done|]. intros [= -> _]. lia.
Qed.

Lemma bytes_Compare_antisym a : ∀ b,
  bytes_Compare b a = (- bytes_Compare a b)%Z.
Proof.
  induction a as [|x a IH]; intros [|y b]; simpl; try done.
  rewrite (N.compare_antisym (Byte.to_N x) (Byte.to_N y)).
  destruct (N.compare (Byte.to_N x) (Byte.to_N y)); simpl; [apply IH|done..].
Qed.

Lemma bytes_Compare_trans a : ∀ b c,
  (bytes_Compare a b < 0 → bytes_Compare b c < 0 → bytes_Compare a c < 0)%Z.
Proof.
  induction a as [|x a IH]; intros [|y b] [|z c]; simpl; try lia.
  destruct (N.compare_spec (Byte.to_N x) (Byte.to_N y)) as [Hxy|Hxy|Hxy],
           (N.compare_spec (Byte.to_N y) (Byte.to_N z)) as [Hyz|Hyz|Hyz];
    try lia.
  - rewrite Hxy, Hyz, N.compare_refl. apply IH.
  - intros _ _. by rewrite Hxy, (proj2 (N.compare_lt_iff _ _) Hyz).
  - intros _ _. by rewrite <- Hyz, (proj2 (N.compare_lt_iff _ _) Hxy).
  - intros _ _.
    by rewrite (proj2 (N.compare_lt_iff _ _) (N.lt_trans _ _ _ Hxy Hyz)).
Qed.

(** X17: on envelopes whose timestamps are below [2^63] the comparator is a
    strict total order on (timestamp, message): irreflexive, asymmetric,
    transitive, and two envelopes neither of which is less than the other have
    the same timestamp and message. *)
Theorem less_is_strict_total_order_below_2_63 (e1 e2 e3 : Envelope) :
  small_timestamp e1 → small_timestamp e2 → small_timestamp e3 →
  less e1 e1 = false
  ∧ (less e1 e2 = true → less e2 e1 = false)
  ∧ (less e1 e2 = true → less e2 e3 = true → less e1 e3 = true)
  ∧ (less e1 e2 = false → less e2 e1 = false → sort_key e1 = sort_key e2).
Proof.
  intros H1 H2 H3. unfold small_timestamp in *.
  assert (Hirr : less e1 e1 = false).
  { apply not_true_is_false. rewrite less_small_timestamps by done.
    unfold spec_before.
    rewrite (proj2 (bytes_Compare_eq (Message e1) (Message e1)) eq_refl). lia. }
  split; [exact Hirr|]. split; [|split].
  - intros H12. apply not_true_is_false. revert H12.
    rewrite !less_small_timestamps by done. unfold spec_before.
    rewrite (bytes_Compare_antisym (Message e1) (Message e2)). lia.
  - rewrite !less_small_timestamps by done. unfold spec_before.
    intros [?|[? ?]] [?|[? ?]]; [left; lia..|right].
    split; [lia|]. by eapply bytes_Compare_trans.
  - intros H12%not_true_iff_false H21%not_true_iff_false.
    rewrite less_small_timestamps in H12, H21 by done. unfold spec_before in *.
    rewrite (bytes_Compare_antisym (Message e1) (Message e2)) in H21.
    assert (TimestampNs e1 = TimestampNs e2) as Ht by lia.
    assert (bytes_Compare (Message e1) (Message e2) = 0%Z) as Hm by lia.
    apply bytes_Compare_eq in Hm. unfold sort_key. by rewrite Ht, Hm.
Qed.

Lemma less_is_strict_total_order_below_2_63_witness :
  less (envelope 5) (envelope 7) = true ∧ less (envelope 7) (envelope 5) = false.
Proof.
  split; [reflexivity|].
  apply (less_is_strict_total_order_below_2_63 (envelope 5) (envelope 7)
           (envelope 9)); unfold small_timestamp; simpl; try lia.
  reflexivity.
Defined.

Lemma wrap_int_spec z :
  ∃ k, wrap_int z = (z + k * 2 ^ 64)%Z ∧ (- 2 ^ 63 ≤ wrap_int z < 2 ^ 63)%Z.
Proof.
  unfold wrap_int. exists (- ((z + 2 ^ 63) / 2 ^ 64))%Z.
  pose proof (Z.div_mod (z + 2 ^ 63) (2 ^ 64) ltac:(lia)) as Hdm.
  pose proof (Z.mod_pos_bound (z + 2 ^ 63) (2 ^ 64) ltac:(lia)) as Hbd.
  set (q := ((z + 2 ^ 63) / 2 ^ 64)%Z) in *.
  set (r := ((z + 2 ^ 63) mod 2 ^ 64)%Z) in *. clearbody q r.
  split; lia.
Qed.

(** X18: how the comparator orders two envelopes with different [uint64]
    timestamps depends on their distance only: the earlier one is less when
    the distance is below [2^63], the later one is less when it is above, and
    each is less than the other when it is [2^63]. *)
Theorem less_by_timestamp_distance (ei ej : Envelope) :
  uint64_ok ei → uint64_ok ej →
  ((0 < TimestampNs ej - TimestampNs ei < 2 ^ 63)%Z →
     less ei ej = true ∧ less ej ei = false)
  ∧ ((TimestampNs ej - TimestampNs ei = 2 ^ 63)%Z →
     less ei ej = true ∧ less ej ei = true)
  ∧ ((2 ^ 63 < TimestampNs ej - TimestampNs ei)%Z →
     less ei ej = false ∧ less ej ei = true).
Proof.
  unfold uint64_ok, less, int_sub, int_of_uint64.
  intros Hi Hj.
  set (a := TimestampNs ei) in *. set (b := TimestampNs ej) in *.
  pose proof wrap_int_spec as Hw.
  clearbody a b.
  destruct (Hw a) as (ka & Ha & Hra), (Hw b) as (kb & Hb & Hrb).
  destruct (Hw (wrap_int a - wrap_int b)%Z) as (k1 & H1 & Hr1).
  destruct (Hw (wrap_int b - wrap_int a)%Z) as (k2 & H2 & Hr2).
  split; [|split]; intros Hd.
  - assert (wrap_int (wrap_int a - wrap_int b) = a - b)%Z as -> by lia.
    assert (wrap_int (wrap_int b - wrap_int a) = b - a)%Z as -> by lia.
    rewrite (proj2 (Z.eqb_neq _ _)) by lia.
    rewrite (proj2 (Z.eqb_neq (b - a) 0)) by lia. simpl.
    split; [apply Z.ltb_lt; lia|apply Z.ltb_ge; lia].
  - assert (wrap_int (wrap_int a - wrap_int b) = - 2 ^ 63)%Z as -> by lia.
    assert (wrap_int (wrap_int b - wrap_int a) = - 2 ^ 63)%Z as -> by lia.
    done.
  - assert (wrap_int (wrap_int a - wrap_int b) = a - b + 2 ^ 64)%Z as -> by lia.
    assert (wrap_int (wrap_int b - wrap_int a) = b - a - 2 ^ 64)%Z as -> by lia.
    rewrite (proj2 (Z.eqb_neq _ _)) by lia.
    rewrite (proj2 (Z.eqb_neq (b - a - 2 ^ 64) 0)) by lia. simpl.
    split; [apply Z.ltb_ge; lia|apply Z.ltb_lt; lia].
Qed.

Lemma less_by_timestamp_distance_witness :
  less (envelope 3) (envelope (2 ^ 63 + 4)) = false
  ∧ less (envelope (2 ^ 63 + 4)) (envelope 3) = true.
Proof.
  apply (less_by_timestamp_distance (envelope 3) (envelope (2 ^ 63 + 4)));
    unfold uint64_ok; simpl; lia.
Defined.

Lemma key_le_antisym k1 k2 : key_le k1 k2 → key_le k2 k1 → k1 = k2.
Proof.
  destruct k1 as [t1 m1], k2 as [t2 m2]. unfold key_le; simpl.
  rewrite (bytes_Compare_antisym m1 m2).
  intros [?|[-> ?]] [?|[? ?]]; try lia.
  f_equal. apply bytes_Compare_eq. lia.
Qed.

Lemma not_less_key_le (ei ej : Envelope) :
  small_timestamp ei → small_timestamp ej →
  less ej ei = false → key_le (sort_key ei) (sort_key ej).
Proof.
  intros Hi Hj Hl%not_true_iff_false.
  rewrite less_small_timestamps in Hl by done.
  unfold spec_before in Hl. unfold key_le, sort_key; simpl.
  rewrite (bytes_Compare_antisym (Message ei) (Message ej)) in Hl. lia.
Qed.

Lemma sorted_by_less_keys (l : list Envelope) :
  Forall small_timestamp l → sorted_by_less l →
  StronglySorted key_le (sort_key <$> l).
Proof.
  induction l as [|e l IH]; intros Hsmall Hsorted; [constructor|].
  apply Forall_cons in Hsmall as [He Hsmall].
  rewrite fmap_cons. apply StronglySorted_cons. split.
  - apply Forall_fmap, Forall_lookup. intros j ej Hj. simpl.
    apply not_less_key_le; [done|by eapply Forall_lookup_1|].
    apply (Hsorted 0 (S j) e ej); [lia|done..].
  - apply IH; [done|]. intros i j ei ej Hij Hi Hj.
    apply (Hsorted (S i) (S j) ei ej); [lia|done..].
Qed.

(** X19: two arrangements of the same envelopes, timestamps below [2^63], that
    are both sorted for the comparator show the same sequence of
    (timestamp, message) keys: replicas that hold the same envelopes sort them
    alike. *)
Theorem sorting_by_less_is_unique (l1 l2 : list Envelope) :
  Forall small_timestamp l1 → l1 ≡ₚ l2 →
  sorted_by_less l1 → sorted_by_less l2 →
  sort_key <$> l1 = sort_key <$> l2.
Proof.
  intros Hsmall Hperm Hs1 Hs2.
  assert (Hsmall2 : Forall small_timestamp l2) by (by rewrite <- Hperm).
  apply (StronglySorted_unique_strong key_le).
  - intros k1 k2 _ _. apply key_le_antisym.
  - by apply sorted_by_less_keys.
  - by apply sorted_by_less_keys.
  - by rewrite Hperm.
Qed.

Lemma sorting_by_less_is_unique_witness :
  sort_key <$> [envelopeOn "a" 1; envelopeOn "b" 1; envelope 2]
  = sort_key <$> [envelopeOn "b" 1; envelopeOn "a" 1; envelope 2].
Proof.
  assert (Hs : ∀ t1 t2,
            sorted_by_less [envelopeOn t1 1; envelopeOn t2 1; envelope 2]).
  { intros t1 t2 [|[|[|i]]] [|[|[|j]]] ei ej Hij Hi Hj; try lia; try done;
      injection Hi as <-; injection Hj as <-; reflexivity. }
  apply (sorting_by_less_is_unique
           [envelopeOn "a" 1; envelopeOn "b" 1; envelope 2]
           [envelopeOn "b" 1; envelopeOn "a" 1; envelope 2]);
    [|apply perm_swap|apply Hs|apply Hs].
  repeat constructor; unfold small_timestamp; simpl; lia.
Defined.

Lemma int_of_uint64_of_int i :
  int_ok i → int_of_uint64 (uint64_of_int i) = i.
Proof.
  unfold int_ok, int_of_uint64, uint64_of_int. intros Hi.
  destruct (wrap_int_spec (i mod 2 ^ 64)) as (k & Hk & Hr).
  pose proof (Z.div_mod i (2 ^ 64) ltac:(lia)) as Hdm.
  pose proof (Z.mod_pos_bound i (2 ^ 64) ltac:(lia)) as Hbd.
  set (q := (i / 2 ^ 64)%Z) in *. set (r := (i mod 2 ^ 64)%Z) in *.
  clearbody q r. lia.
Qed.

(** X20: the [int] timestamp given to [newRandomEnvelope] is read back
    unchanged by the comparator, the "msg-" prefix plays no part in the
    tiebreak, and two such envelopes whose timestamps differ by less than
    [2^63] are ordered by the timestamp, then by the random suffix. *)
Theorem newRandomEnvelope_orders_by_int_timestamp
    (topic1 topic2 : string) (ts1 ts2 : Z) (r1 r2 : string) :
  int_ok ts1 → int_ok ts2 → int_ok (ts1 - ts2) →
  let e1 := newRandomEnvelope topic1 ts1 r1 in
  let e2 := newRandomEnvelope topic2 ts2 r2 in
  uint64_ok e1
  ∧ int_of_uint64 (TimestampNs e1) = ts1
  ∧ bytes_Compare (Message e1) (Message e2)
    = bytes_Compare (list_byte_of_string r1) (list_byte_of_string r2)
  ∧ (less e1 e2 = true
     ↔ (ts1 < ts2)%Z
       ∨ (ts1 = ts2
          ∧ (bytes_Compare (list_byte_of_string r1)
                           (list_byte_of_string r2) < 0)%Z)).
Proof.
  intros H1 H2 Hd e1 e2. subst e1 e2.
  assert (Hmsg : bytes_Compare (Message (newRandomEnvelope topic1 ts1 r1))
                               (Message (newRandomEnvelope topic2 ts2 r2))
                 = bytes_Compare (list_byte_of_string r1)
                                 (list_byte_of_string r2)) by reflexivity.
  split; [|split; [|split]].
  - unfold uint64_ok, newRandomEnvelope, uint64_of_int; simpl.
    apply Z.mod_pos_bound. lia.
  - by apply int_of_uint64_of_int.
  - exact Hmsg.
  - unfold less. rewrite Hmsg. cbn [TimestampNs newRandomEnvelope].
    rewrite !int_of_uint64_of_int by done.
    unfold int_sub. rewrite wrap_int_small by (unfold int_ok in Hd; lia).
    destruct (Z.eqb_spec (ts1 - ts2) 0) as [Hz|Hz]; simpl;
      rewrite Z.ltb_lt; lia.
Qed.

Lemma newRandomEnvelope_orders_by_int_timestamp_witness :
  less (newRandomEnvelope "t" (-1) "a") (newRandomEnvelope "t" 0 "b") = true.
Proof.
  apply (proj2 (proj2 (proj2 (newRandomEnvelope_orders_by_int_timestamp
           "t" "t" (-1) 0 "a" "b" ltac:(unfold int_ok; lia)
           ltac:(unfold int_ok; lia) ltac:(unfold int_ok; lia))))).
  left. lia.
Defined.

End ApiTestingFacts.
